(** * Data recombination: span splicing, grammar induction, rejection sampling

    A shallow embedding of [src/data_recombination.py] (class [Augmenter]) and
    the properties of its natural-language specification.

    Python values are embedded as follows.
    - [str] is [string]; a character is a code point below 256.
    - [int] is [Z] (Python integers are unbounded).
    - a span [(start, end)] is a pair of integers, a swap [(span, rep)] a
      pair of a span and a string, a rule a triple [(cat, x_str, y_str)].
    - a function that may raise returns a [result]. *)

From Stdlib Require Import ZArith Lia Ascii String List Permutation Sorted.
From stdpp Require Import base tactics option list numbers strings pretty gmap.

Local Open Scope string_scope.
Local Open Scope list_scope.
Local Open Scope Z_scope.

(** ** Exceptions *)

(** Both exceptions of the module are Python [ValueError]s: the one raised at
    line 62 with an explicit message, and the one [int(...)] raises on a
    string that is not an integer literal (line 47). *)
Inductive exn : Type :=
| ValueError (msg : string)
| ValueError_int_literal (literal : string).

Inductive result (A : Type) : Type :=
| Return (a : A)
| Raise (e : exn).
Arguments Return {A} a.
Arguments Raise {A} e.

#[export] Instance result_ret : MRet result := fun A a => Return a.
#[export] Instance result_bind : MBind result := fun A B f m =>
  match m with
  | Return a => f a
  | Raise e => Raise e
  end.

#[export] Instance result_fmap : FMap result := fun A B f m =>
  match m with
  | Return a => Return (f a)
  | Raise e => Raise e
  end.

Definition returns {A} (m : result A) : Prop := exists a, m = Return a.

(** ** Python strings *)

Module PyStr.

(** [len(s)] *)
Definition len (s : string) : Z := Z.of_nat (String.length s).

Fixpoint take (n : nat) (s : string) : string :=
  match n, s with
  | S n', String c s' => String c (take n' s')
  | _, _ => ""
  end.

Fixpoint drop (n : nat) (s : string) : string :=
  match n, s with
  | S n', String _ s' => drop n' s'
  | _, _ => s
  end.

(** How a slice bound is read: a negative bound counts from the end, and
    every bound is clamped to [0 .. len(s)]. *)
Definition slice_index (s : string) (i : Z) : nat :=
  Z.to_nat (if i <? 0 then Z.max 0 (i + len s) else Z.min i (len s)).

(** [s[:i]] *)
Definition slice_to (s : string) (i : Z) : string :=
  take (slice_index s i) s.

(** [s[i:]] *)
Definition slice_from (s : string) (i : Z) : string :=
  drop (slice_index s i) s.

(** [s[i:j]] *)
Definition slice (s : string) (i j : Z) : string :=
  take (slice_index s j - slice_index s i) (drop (slice_index s i) s).

(** [sep.join(l)] *)
Definition join (sep : string) (l : list string) : string :=
  String.concat sep l.

(** [range(n)] *)
Definition range (n : Z) : list Z := map Z.of_nat (seq 0 (Z.to_nat n)).

(** ['%d' % i] *)
Definition fmt_d (i : Z) : string := pretty i.

(** *** [int(s)] in base 10 *)

(** The characters [int] strips from both ends. *)
Definition is_space (c : ascii) : bool :=
  let n := nat_of_ascii c in
  ((9 <=? n) && (n <=? 13) || (n =? 32) || (n =? 133) || (n =? 160))%nat.

Fixpoint lstrip (s : string) : string :=
  match s with
  | String c s' => if is_space c then lstrip s' else s
  | EmptyString => EmptyString
  end.

Definition strip (s : string) : string :=
  String.rev (lstrip (String.rev (lstrip s))).

Definition digit_value (c : ascii) : option Z :=
  Z.of_nat <$> Ascii.is_nat c.

(** Digits, with single underscores allowed between two digits. *)
Fixpoint parse_digits (acc : Z) (after_digit : bool) (s : string) : option Z :=
  match s with
  | EmptyString => if after_digit then Some acc else None
  | String c s' =>
      match digit_value c with
      | Some d => parse_digits (10 * acc + d) true s'
      | None =>
          if bool_decide (c = "_"%char) && after_digit
          then parse_digits acc false s'
          else None
      end
  end.

Definition parse_int (s : string) : option Z :=
  match strip s with
  | String "+" r => parse_digits 0 false r
  | String "-" r => Z.opp <$> parse_digits 0 false r
  | t => parse_digits 0 false t
  end.

Definition int (s : string) : result Z :=
  match parse_int s with
  | Some n => Return n
  | None => Raise (ValueError_int_literal s)
  end.

End PyStr.

Import PyStr.

(** ** Data model *)

Definition span : Type := Z * Z.
Definition swap : Type := span * string.
Definition rule : Type := string * string * string.
Definition alignment : Type := string * span * span.
Definition example : Type := string * string.

(** The order of Python tuples of two integers, [p > q]. *)
Definition span_gtb (p q : span) : bool :=
  (q.1 <? p.1) || ((q.1 =? p.1) && (q.2 <? p.2)).

(** [swaps.sort(key=lambda x: x[0], reverse=True)]: the key [x[0]] is the whole
    span, the sort is stable, and with [reverse=True] swaps of equal key keep
    their original order. *)
Fixpoint insert_desc (x : swap) (l : list swap) : list swap :=
  match l with
  | [] => [x]
  | y :: l' => if span_gtb y.1 x.1 then y :: insert_desc x l' else x :: l
  end.

Definition sort_desc (l : list swap) : list swap := foldr insert_desc [] l.

(** [p >= q] in the order of tuples. *)
Definition span_ge (p q : span) : Prop :=
  q.1 < p.1 \/ (q.1 = p.1 /\ q.2 <= p.2).

Definition swap_ge (a b : swap) : Prop := span_ge a.1 b.1.

(** ** [Augmenter.splice] (lines 51-65) *)

Definition NonDisjointSpans : exn := ValueError "Non-disjoint spans detected".

(** The loop of lines 57-64; the two diagnostic prints to [stderr] before the
    [raise] are not part of the result and are left out. *)
Fixpoint splice_loop (cur_left : Z) (new_s : string) (swaps : list swap)
  : result string :=
  match swaps with
  | [] => Return new_s
  | (sp, rep) :: rest =>
      if cur_left <? sp.2 then Raise NonDisjointSpans
      else splice_loop sp.1 (slice_to new_s sp.1 +:+ rep +:+ slice_from new_s sp.2) rest
  end.

Definition splice (s : string) (swaps : list swap) : result string :=
  splice_loop (len s) s (sort_desc swaps).

(** The condition under which the loop runs to its end: every span ends at or
    before the current left border, which then moves to the span's start. *)
Fixpoint chain (cur_left : Z) (l : list swap) : Prop :=
  match l with
  | [] => True
  | (sp, _) :: rest => sp.2 <= cur_left /\ chain sp.1 rest
  end.

(** The reading of [splice] in the specification's words: going through the
    swaps from left to right, the text of [s] between [pos] and the next span
    is kept, the span's text gives way to its replacement, and the text after
    the last span, up to [hi], is kept. *)
Fixpoint weave (s : string) (pos : Z) (asc : list swap) (hi : Z) : string :=
  match asc with
  | [] => slice s pos hi
  | (sp, rep) :: rest => slice s pos sp.1 +:+ rep +:+ weave s sp.2 rest hi
  end.

(** The swaps of [asc] lie from left to right between [pos] and [hi]: each
    span starts at or after the end of the one before it. *)
Fixpoint left_to_right (pos : Z) (asc : list swap) (hi : Z) : Prop :=
  match asc with
  | [] => pos <= hi
  | (sp, _) :: rest => pos <= sp.1 /\ sp.1 <= sp.2 /\ left_to_right sp.2 rest hi
  end.

(** Total length of the replaced spans, and of their replacements. *)
Definition replaced_length (swaps : list swap) : Z :=
  foldr (fun sw acc => (sw.1.2 - sw.1.1) + acc) 0 swaps.

Definition replacement_length (swaps : list swap) : Z :=
  foldr (fun sw acc => len sw.2 + acc) 0 swaps.

(** *** Spans as intervals *)

(** [sp] is a half-open interval into [s]. *)
Definition span_within (s : string) (sp : span) : Prop :=
  0 <= sp.1 /\ sp.1 <= sp.2 /\ sp.2 <= len s.

(** [start <= end]. *)
Definition span_ordered (sp : span) : Prop := sp.1 <= sp.2.

(** Two spans overlap when they share a position of the original string. *)
Definition overlap (p q : span) : Prop :=
  exists i, (p.1 <= i /\ i < p.2) /\ (q.1 <= i /\ i < q.2).

(** Two spans are disjoint when one ends at or before the start of the
    other. *)
Definition disjoint (p q : span) : Prop := p.2 <= q.1 \/ q.2 <= p.1.

(** [R] holds between any two entries at different positions of the list. *)
Fixpoint pairwise {A} (R : A -> A -> Prop) (l : list A) : Prop :=
  match l with
  | [] => True
  | x :: l' => Forall (R x) l' /\ pairwise R l'
  end.

Definition pairwise_disjoint (swaps : list swap) : Prop :=
  pairwise (fun a b => disjoint a.1 b.1) swaps.

(** Some two entries of the list, at different positions, have overlapping
    spans. *)
Definition some_overlap (swaps : list swap) : Prop :=
  exists l1 a l2 b l3,
    swaps = l1 ++ a :: l2 ++ b :: l3 /\ overlap a.1 b.1.

(** C10 as it is stated, for one string and one list of swaps: a span that
    ends beyond the string makes [splice] raise. *)
Definition claim_end_beyond_len_raises (s : string) (swaps : list swap) : Prop :=
  Exists (fun sw : swap => len s < sw.1.2) swaps ->
  splice s swaps = Raise NonDisjointSpans.

(** ** Collaborators *)

(** Modelled from the spec: [Grammar.ROOT], the designated start category of
    the class [Grammar] that line 25 imports from the module [grammar]. *)
Class GrammarRoot := ROOT : string.

(** Modelled from the spec: a [Grammar] with its [rule_list], all the
    (category, x, y) triples in the order of their insertion. *)
Record Grammar : Type := mkGrammar { rule_list : list rule }.

(** Modelled from the spec: [Grammar()], the grammar with no rule. *)
Definition Grammar_new : Grammar := {| rule_list := [] |}.

(** Modelled from the spec: [Grammar.add_rule(category, x_pattern, y_pattern)]
    inserts one rule. *)
Definition add_rule (g : Grammar) (cat x_str y_str : string) : Grammar :=
  {| rule_list := rule_list g ++ [(cat, x_str, y_str)] |}.

(** Modelled from the spec: [Grammar(dataset)], the base grammar with one
    literal [ROOT] rule per example. *)
Definition Grammar_of_dataset `{R : GrammarRoot} (dataset : list example) : Grammar :=
  foldl (fun g '(x, y) => add_rule g ROOT x y) Grammar_new dataset.

(** Modelled from the spec: [Grammar.sample()], which draws from a
    process-wide random source.  [grammar_sample g i] is the pair returned by
    the [i]-th call on the grammar [g]. *)
Class Sampler := grammar_sample : Grammar -> nat -> example.

(** Modelled from the spec: the domain that [domains.new] returns (line 154),
    the collaborator that supplies the alignments and the productions. *)
Class Domain := {
  get_entity_alignments : string -> string -> list alignment;
  get_nesting_alignments : string -> string -> list alignment * list rule
}.

(** [list(set(l))]: the elements of [l], each once, in an order that the
    language leaves open. *)
Class SetOrder := {
  list_of_set : list swap -> list swap;
  list_of_set_NoDup : forall l, NoDup (list_of_set l);
  elem_of_list_of_set : forall l x, x ∈ list_of_set l <-> x ∈ l
}.

(** One admissible order: that of last occurrence. *)
Definition last_occurrence_order : SetOrder :=
  {| list_of_set := remove_dups;
     list_of_set_NoDup := NoDup_remove_dups;
     elem_of_list_of_set := fun l x => elem_of_remove_dups l x |}.

(** A Python [for] loop whose body may raise. *)
Fixpoint foldlM {A B} (f : B -> A -> result B) (b : B) (l : list A) : result B :=
  match l with
  | [] => Return b
  | a :: l' => b' ← f b a; foldlM f b' l'
  end.

(** ** Grammar induction (lines 67-139) *)

Section Induction.
Context `{R : GrammarRoot} `{D : Domain} `{Ord : SetOrder}.

(** ['%s_%d' % (inner_cat, x_span[0])] *)
Definition placeholder (inner_cat : string) (x_span : span) : string :=
  inner_cat +:+ "_" +:+ fmt_d x_span.1.

(** Lines 87-89 and 113-115. *)
Definition x_swaps (alignments : list alignment) : list swap :=
  list_of_set
    (map (fun '(inner_cat, x_span, y_span) => (x_span, placeholder inner_cat x_span))
         alignments).

(** Lines 91-92 and 117-118. *)
Definition y_swaps (alignments : list alignment) : list swap :=
  map (fun '(inner_cat, x_span, y_span) => (y_span, placeholder inner_cat x_span))
      alignments.

(** Lines 87-94 and 113-120: the templated rule of one base rule. *)
Definition add_template (alignments : list alignment) (new_grammar : Grammar)
    (r : rule) : result Grammar :=
  let '(cat, x_str, y_str) := r in
  x_new ← splice x_str (x_swaps alignments);
  y_new ← splice y_str (y_swaps alignments);
  mret (add_rule new_grammar cat x_new y_new).

(** Lines 76-81: the literal entity rules. *)
Definition add_entity_rules (dataset : list example) (new_grammar : Grammar)
    : Grammar :=
  foldl (fun g '(x, y) =>
           foldl (fun g '(cat, x_span, y_span) =>
                    add_rule g cat (slice x x_span.1 x_span.2)
                                   (slice y y_span.1 y_span.2))
                 g (get_entity_alignments x y))
        new_grammar dataset.

(** The rules that lines 76-81 add, as one list. *)
Definition entity_rules (dataset : list example) : list rule :=
  flat_map (fun '(x, y) =>
              map (fun '(cat, x_span, y_span) =>
                     (cat, slice x x_span.1 x_span.2, slice y y_span.1 y_span.2))
                  (get_entity_alignments x y))
           dataset.

(** What one templated rule is: both sides spliced, the category kept. *)
Definition templated (alignments : list alignment) (r t : rule) : Prop :=
  exists x_new y_new,
    splice r.1.2 (x_swaps alignments) = Return x_new
    /\ splice r.2 (y_swaps alignments) = Return y_new
    /\ t = (r.1.1, x_new, y_new).

Definition induce_entity_grammar (dataset : list example)
    (start_grammar : Grammar) : result Grammar :=
  foldlM (fun g r =>
            let '(cat, x_str, y_str) := r in
            add_template (get_entity_alignments x_str y_str) g r)
         (add_entity_rules dataset Grammar_new)
         (rule_list start_grammar).

(** Lines 109-110. *)
Definition add_productions (productions : list rule) (new_grammar : Grammar)
    : Grammar :=
  foldl (fun g '(cat_p, x_p, y_p) => add_rule g cat_p x_p y_p)
        new_grammar productions.

Definition induce_nesting_grammar (start_grammar : Grammar) : result Grammar :=
  foldlM (fun g r =>
            let '(cat, x_str, y_str) := r in
            let '(alignments, productions) := get_nesting_alignments x_str y_str in
            add_template alignments (add_productions productions g) r)
         Grammar_new
         (rule_list start_grammar).

(** Line 135. *)
Definition root_str (concat_num : Z) : string :=
  join (" " +:+ "[SEP]" +:+ " ")
       (map (fun i => "$sentence_" +:+ fmt_d i) (range concat_num)).

Definition induce_concat_grammar (start_grammar : Grammar) (concat_num : Z)
    : Grammar :=
  let new_grammar :=
    foldl (fun g '(cat, x_str, y_str) =>
             if bool_decide (cat = ROOT)
             then add_rule g "$sentence" x_str y_str
             else add_rule g cat x_str y_str)
          Grammar_new (rule_list start_grammar) in
  add_rule new_grammar ROOT (root_str concat_num) (root_str concat_num).

(** ** [Augmenter] (lines 30-49, 141-147) *)

(** The body of the loop of [setup_grammar], lines 42-48. *)
Definition apply_aug_type (dataset : list example) (grammar : Grammar)
    (aug_type : string) : result Grammar :=
  if bool_decide (aug_type = "entity") then
    induce_entity_grammar dataset grammar
  else if bool_decide (aug_type = "nesting") then
    induce_nesting_grammar grammar
  else if String.prefix "concat" aug_type then
    concat_num ← int (slice_from aug_type 6);
    mret (induce_concat_grammar grammar concat_num)
  else Return grammar.

Definition setup_grammar (dataset : list example) (aug_types : list string)
    : result Grammar :=
  foldlM (apply_aug_type dataset) (Grammar_of_dataset dataset) aug_types.

(** The fields of [self]; [self.domain] is the [Domain] at hand. *)
Record Augmenter : Type := mkAugmenter {
  dataset : list example;
  dataset_set : gset example;
  grammar : Grammar
}.

(** [Augmenter.__init__] *)
Definition Augmenter_init (data : list example) (aug_types : list string)
    : result Augmenter :=
  g ← setup_grammar data aug_types;
  mret {| dataset := data; dataset_set := list_to_set data; grammar := g |}.

Context `{Smp : Sampler}.

(** The loop of [sample], lines 143-146.  [calls] counts the calls of
    [self.grammar.sample()] made so far; the loop has no bound of its own,
    so the model runs it for at most [fuel] more draws and answers [None]
    when they do not suffice. *)
Fixpoint sample_loop (self : Augmenter) (num : Z) (fuel calls : nat)
    (aug_data : list example) : option (list example) :=
  if Z.of_nat (length aug_data) <? num then
    match fuel with
    | O => None
    | S fuel' =>
        let '(x, y) := grammar_sample (grammar self) calls in
        if bool_decide ((x, y) ∈ dataset_set self)
        then sample_loop self num fuel' (S calls) aug_data
        else sample_loop self num fuel' (S calls) (aug_data ++ [(x, y)])
    end
  else Some aug_data.

(** The draws number [calls] to [calls + n - 1] that are not in the dataset. *)
Definition accepted (self : Augmenter) (calls n : nat) : list example :=
  filter (fun p => p ∉ dataset_set self)
         (map (grammar_sample (grammar self)) (seq calls n)).

Definition sample (self : Augmenter) (num : Z) (fuel : nat)
    : option (list example) :=
  sample_loop self num fuel 0%nat [].

End Induction.

(** ** Readings of the specification *)

(** The placeholder tokens spliced into the two sides of a templated rule. *)
Definition x_tokens `{Ord : SetOrder} (alignments : list alignment) : list string :=
  (x_swaps alignments).*2.

Definition y_tokens (alignments : list alignment) : list string :=
  (y_swaps alignments).*2.

(** C4 as it is stated, for one list of alignments: the two sides of the
    templated rule are given the same multiset of placeholder tokens. *)
Definition claim_same_multiset `{Ord : SetOrder} (alignments : list alignment) : Prop :=
  x_tokens alignments ≡ₚ y_tokens alignments.

(** The number of places of [s] at which [t] occurs. *)
Fixpoint occurrences (t s : string) : nat :=
  match s with
  | EmptyString => 0
  | String _ s' => (if String.prefix t s then 1 else 0) + occurrences t s'
  end.

(** The distinct (inner category, x-span start) keys of a list of alignments. *)
Definition x_keys (alignments : list alignment) : list (string * Z) :=
  remove_dups (map (fun '(inner_cat, x_span, y_span) => (inner_cat, x_span.1))
                   alignments).

(** The (inner category, x-span) pairs of a list of alignments. *)
Definition x_anchors (alignments : list alignment) : list (string * span) :=
  map (fun '(inner_cat, x_span, y_span) => (inner_cat, x_span)) alignments.

(** C5 as it is stated, for one list of alignments: the x side is given one
    placeholder per distinct (inner category, x-span start) key. *)
Definition claim_one_placeholder_per_key `{Ord : SetOrder} (alignments : list alignment)
    : Prop :=
  length (x_swaps alignments) = length (x_keys alignments).

(** The concatenation identifiers of the command line: [concat] followed by
    the decimal digits of a positive integer. *)
Fixpoint decimal_value (acc : Z) (s : string) : option Z :=
  match s with
  | EmptyString => Some acc
  | String c s' =>
      match digit_value c with
      | Some d => decimal_value (10 * acc + d) s'
      | None => None
      end
  end.

Definition supported_concat_id (aug_type : string) : bool :=
  String.prefix "concat" aug_type
  && match decimal_value 0 (drop 6 aug_type) with
     | Some k => 0 <? k
     | None => false
     end.

(** C9 as it is stated, for one identifier. *)
Definition claim_unknown_skipped `{R : GrammarRoot} `{D : Domain} `{Ord : SetOrder}
    (aug_type : string) : Prop :=
  aug_type <> "entity" -> aug_type <> "nesting" ->
  supported_concat_id aug_type = false ->
  forall dataset grammar, apply_aug_type dataset grammar aug_type = Return grammar.

(** The root string in the specification's words: after the first token,
    every further token comes behind the separator. *)
Fixpoint sentence_tokens (k : nat) : string :=
  match k with
  | O => ""
  | S O => "$sentence_0"
  | S k' => sentence_tokens k' +:+ " [SEP] " +:+ "$sentence_" +:+ fmt_d (Z.of_nat k')
  end.

(** The base rule as the concatenation strategy copies it. *)
Definition as_sentence `{R : GrammarRoot} (r : rule) : rule :=
  let '(cat, x_str, y_str) := r in
  (if bool_decide (cat = ROOT) then "$sentence" else cat, x_str, y_str).

(** ** Scenarios *)

Definition dollar_ROOT : GrammarRoot := "$ROOT".

(** A domain given by two tables. *)
Definition lookup_example {A} (d : A) (table : list (example * A)) (x y : string) : A :=
  match list_find (fun e : example * A => e.1 = (x, y)) table with
  | Some (_, (_, a)) => a
  | None => d
  end.

Definition table_domain (entity : list (example * list alignment))
    (nesting : list (example * (list alignment * list rule))) : Domain :=
  {| get_entity_alignments := lookup_example [] entity;
     get_nesting_alignments := lookup_example ([], []) nesting |}.

Definition geo_dataset : list example :=
  [("what states border texas ?", "answer(state(next_to(stateid(texas))))");
   ("what is the highest mountain in ohio ?",
    "answer(highest(mountain(loc(stateid(ohio)))))")].

Definition geo_domain : Domain :=
  table_domain
    [(("what states border texas ?", "answer(state(next_to(stateid(texas))))"),
      [("$state", (19, 24), (21, 35))]);
     (("what is the highest mountain in ohio ?",
       "answer(highest(mountain(loc(stateid(ohio)))))"),
      [("$state", (32, 36), (28, 41))])]
    [(("what is the highest mountain in ohio ?",
       "answer(highest(mountain(loc(stateid(ohio)))))"),
      ([("$state", (32, 36), (28, 41))],
       [("$state", "states border texas", "state(next_to(stateid(texas)))")]))].

(** The grammar of the entity strategy on [geo_dataset]. *)
Definition geo_entity_grammar : Grammar :=
  {| rule_list :=
       [("$state", "texas", "stateid(texas)");
        ("$state", "ohio", "stateid(ohio)");
        ("$ROOT", "what states border $state_19 ?",
         "answer(state(next_to($state_19)))");
        ("$ROOT", "what is the highest mountain in $state_32 ?",
         "answer(highest(mountain(loc($state_32))))")] |}.

(** The grammar of the nesting strategy on the base grammar of [geo_dataset]. *)
Definition geo_nesting_grammar : Grammar :=
  {| rule_list :=
       [("$ROOT", "what states border texas ?",
         "answer(state(next_to(stateid(texas))))");
        ("$state", "states border texas", "state(next_to(stateid(texas)))");
        ("$ROOT", "what is the highest mountain in $state_32 ?",
         "answer(highest(mountain(loc($state_32))))")] |}.

(** One mention in x that stands for two places of y. *)
Definition one_to_many : list alignment :=
  [("$state", (0, 5), (2, 7)); ("$state", (0, 5), (8, 13))].

Definition one_to_many_domain : Domain :=
  table_domain [(("texas twice", "f(texas,texas)"), one_to_many)] [].

(** An empty x-span next to one that starts at the same offset. *)
Definition shared_start : list alignment :=
  [("$c", (0, 0), (0, 0)); ("$c", (0, 1), (0, 1))].

Definition shared_start_domain : Domain :=
  table_domain [(("a", "a"), shared_start)] [].

(** A sampler that goes round a list of pairs. *)
Definition round_robin (pairs : list example) : Sampler :=
  fun _ i => nth (i mod length pairs)%nat pairs ("", "").

(** ** Further readings *)

(** Two swaps with one and the same span have a span that is not empty. *)
Definition shared_span_nonempty (a b : swap) : Prop :=
  a.1 = b.1 -> a.1.1 < a.1.2.

(** The condition of [splice] on a string and its swaps: the spans are
    pairwise disjoint and end within the string. *)
Definition spliceable (s : string) (swaps : list swap) : Prop :=
  pairwise_disjoint swaps /\ Forall (fun sw : swap => sw.1.2 <= len s) swaps.

(** Both sides of a rule can be spliced with the swaps of its alignments. *)
Definition alignments_spliceable `{Ord : SetOrder} (x_str y_str : string)
    (alignments : list alignment) : Prop :=
  spliceable x_str (x_swaps alignments) /\ spliceable y_str (y_swaps alignments).

(** Both spans of an alignment have their start at or before their end. *)
Definition alignment_ordered (al : alignment) : Prop :=
  span_ordered al.1.2 /\ span_ordered al.2.

(** Another admissible order of [list(set(l))]: backwards, by first
    occurrence. *)
Definition reversed_order : SetOrder :=
  {| list_of_set := fun l => remove_dups (reverse l);
     list_of_set_NoDup := fun l => NoDup_remove_dups (reverse l);
     elem_of_list_of_set := fun l x =>
       iff_trans (elem_of_remove_dups (reverse l) x) (elem_of_reverse x l) |}.

(** Every character of the string passes the test. *)
Fixpoint all_chars (P : ascii -> bool) (s : string) : bool :=
  match s with
  | EmptyString => true
  | String c s' => P c && all_chars P s'
  end.

(** ** [main] (lines 150-176) *)

Definition TAB : ascii := "009"%char.
Definition NEWLINE : ascii := "010"%char.

(** The characters that [str.strip()] removes. *)
Definition is_whitespace (c : ascii) : bool :=
  let n := nat_of_ascii c in
  ((9 <=? n) && (n <=? 13) || (28 <=? n) && (n <=? 32)
   || (n =? 133) || (n =? 160))%nat.

Fixpoint str_lstrip (s : string) : string :=
  match s with
  | String c s' => if is_whitespace c then str_lstrip s' else s
  | EmptyString => EmptyString
  end.

Definition str_rstrip (s : string) : string :=
  String.rev (str_lstrip (String.rev s)).

(** [s.strip()] *)
Definition str_strip (s : string) : string := str_rstrip (str_lstrip s).

(** [s.split(sep)] for a separator of one character. *)
Fixpoint str_split (sep : ascii) (s : string) : list string :=
  match s with
  | EmptyString => [EmptyString]
  | String c s' =>
      if bool_decide (c = sep) then EmptyString :: str_split sep s'
      else match str_split sep s' with
           | h :: t => String c h :: t
           | [] => [String c EmptyString]
           end
  end.

(** [x, y = parts], with the messages of CPython 3.11. *)
Definition unpack2 (parts : list string) : result (string * string) :=
  match parts with
  | [x; y] => Return (x, y)
  | [] | [_] =>
      Raise (ValueError ("not enough values to unpack (expected 2, got "
                         +:+ pretty (length parts) +:+ ")"))
  | _ => Raise (ValueError "too many values to unpack (expected 2)")
  end.

(** Modelled from the spec: [Domain.preprocess_lf], which normalizes a raw
    logical form. *)
Class Preprocess := preprocess_lf : string -> string.

(** The exceptions of [main] and what a run of [main] comes to: the file it
    has written, an exception, or a [sample] that has not returned after
    [fuel] draws. *)
Inductive main_exn : Type :=
| UnboundLocalError (name : string)
| FileNotFoundError (path : string)
| Python (e : exn).

Inductive outcome : Type :=
| Written (path : string) (content : list string)
| Raised (e : main_exn)
| Unfinished.

(** Lines 155-163. *)
Definition folder_file (folder : string) : option (string * Z) :=
  if bool_decide (folder = "train") then
    Some ("./geoQueryData/train/geo880_train600.tsv", 600)
  else if bool_decide (folder = "dev") then
    Some ("./geoQueryData/dev/geo880_dev100.tsv", 100)
  else if bool_decide (folder = "test") then
    Some ("./geoQueryData/test/geo880_test280.tsv", 280)
  else None.

(** Line 171. *)
Definition output_path (folder : string) (num nums_data : Z)
    (augmentation_type : string) : string :=
  "./geoQueryData/" +:+ folder +:+ "/geo880_" +:+ folder +:+ "_"
  +:+ fmt_d (num + nums_data) +:+ "_" +:+ augmentation_type +:+ "_recomb.tsv".

(** What lines 174 and 176 write for one pair. *)
Definition write_line (ex : example) : string :=
  ex.1 +:+ String TAB (ex.2 +:+ String NEWLINE EmptyString).

Section Main.
Context `{R : GrammarRoot} `{D : Domain} `{Ord : SetOrder} `{Smp : Sampler}
        `{Pre : Preprocess}.

(** Lines 166-168, for one line of the file. *)
Definition read_line (line : string) : result example :=
  xy ← unpack2 (str_split TAB (str_strip line));
  mret (xy.1, preprocess_lf xy.2).

(** Lines 165-168. *)
Definition read_data (lines : list string) : result (list example) :=
  foldlM (fun data line => ex ← read_line line; mret (data ++ [ex])) [] lines.

(** [main]: [files] gives the lines of the file at a path, as the iteration
    over the open file yields them, or nothing when there is no such file;
    the domain that [domains.new] returns is the [Domain] at hand. *)
Definition main (files : string -> option (list string))
    (folder augmentation_type : string) (num : Z) (fuel : nat) : outcome :=
  let aug_types := str_split "+"%char augmentation_type in
  match folder_file folder with
  | None => Raised (UnboundLocalError "fname")
  | Some (fname, nums_data) =>
      match files fname with
      | None => Raised (FileNotFoundError fname)
      | Some lines =>
          match read_data lines with
          | Raise e => Raised (Python e)
          | Return data =>
              match Augmenter_init data aug_types with
              | Raise e => Raised (Python e)
              | Return augmenter =>
                  match sample augmenter num fuel with
                  | None => Unfinished
                  | Some aug_data =>
                      Written (output_path folder num nums_data augmentation_type)
                              ((write_line <$> data) ++ (write_line <$> aug_data))
                  end
              end
          end
      end
  end.

End Main.

(** The number of times a character occurs in a string. *)
Fixpoint count_char (c : ascii) (s : string) : nat :=
  match s with
  | EmptyString => 0
  | String c' s' => (if bool_decide (c' = c) then 1 else 0) + count_char c s'
  end.

Definition identity_preprocess : Preprocess := fun y => y.

(** A pair that a line of the file can hold: two fields that are not empty
    and hold no tab, the first with no whitespace at its start, the second
    with none at its end. *)
Definition tsv_pair (p : example) : Prop :=
  p.1 <> "" /\ str_lstrip p.1 = p.1 /\ count_char TAB p.1 = 0%nat
  /\ p.2 <> "" /\ str_rstrip p.2 = p.2 /\ count_char TAB p.2 = 0%nat.

(** ** Further scenarios *)

(** A sampler that gives one pair at every draw. *)
Definition constant_sampler (p : example) : Sampler := fun _ _ => p.

(** Two mentions in x that stand for one place of y. *)
Definition many_to_one : list alignment :=
  [("$state", (0, 5), (2, 7)); ("$state", (10, 15), (2, 7))].

Definition many_to_one_domain : Domain :=
  table_domain [(("texas and texas", "f(texas)"), many_to_one)] [].

(** A domain that aligns nothing. *)
Definition silent_domain : Domain := table_domain [] [].

(** The [Augmenter] of the entity strategy on [geo_dataset]. *)
Definition geo_augmenter : Augmenter :=
  {| dataset := geo_dataset;
     dataset_set := list_to_set geo_dataset;
     grammar := geo_entity_grammar |}.

(** The two pairs that the entity grammar of [geo_dataset] adds. *)
Definition geo_new_pairs : list example :=
  [("what states border ohio ?", "answer(state(next_to(stateid(ohio))))");
   ("what is the highest mountain in texas ?",
    "answer(highest(mountain(loc(stateid(texas)))))")].

(** A file system with the file of the folder [dev] only, which holds the
    lines of [geo_dataset]. *)
Definition dev_files (path : string) : option (list string) :=
  if bool_decide (path = "./geoQueryData/dev/geo880_dev100.tsv")
  then Some (write_line <$> geo_dataset)
  else None.

(** * Properties *)

(** ** Strings *)

Module PyStrFacts.

Lemma str_app_cons c s t : String c s +:+ t = String c (s +:+ t).
Proof. reflexivity. Qed.

Lemma str_app_nil_l s : "" +:+ s = s.
Proof. reflexivity. Qed.

Lemma str_length_app s t :
  String.length (s +:+ t) = (String.length s + String.length t)%nat.
Proof.
  induction s as [|c s IH]; [done |].
  rewrite str_app_cons. simpl. by rewrite IH.
Qed.

Lemma len_app s t : len (s +:+ t) = len s + len t.
Proof. unfold len. rewrite str_length_app. lia. Qed.

Lemma len_nonneg s : 0 <= len s.
Proof. unfold len. lia. Qed.

Lemma str_app_assoc s t u : (s +:+ t) +:+ u = s +:+ t +:+ u.
Proof.
  induction s as [|c s IH]; [done |].
  by rewrite !str_app_cons, IH.
Qed.

Lemma str_app_nil_r s : s +:+ "" = s.
Proof.
  induction s as [|c s IH]; [done |].
  by rewrite str_app_cons, IH.
Qed.

Lemma str_take_0 s : take 0 s = "".
Proof. by destruct s. Qed.

Lemma str_drop_0 s : drop 0 s = s.
Proof. by destruct s. Qed.

Lemma str_take_drop n s : take n s +:+ drop n s = s.
Proof.
  revert s; induction n as [|n IH]; intros [|c s]; simpl; try done.
  by rewrite str_app_cons, IH.
Qed.

Lemma str_length_take n s :
  String.length (take n s) = Nat.min n (String.length s).
Proof.
  revert s; induction n as [|n IH]; intros [|c s]; simpl; try done.
  by rewrite IH.
Qed.

Lemma str_length_drop n s :
  String.length (drop n s) = (String.length s - n)%nat.
Proof.
  revert s; induction n as [|n IH]; intros [|c s]; simpl; try done.
Qed.

Lemma str_take_ge n s : (String.length s <= n)%nat -> take n s = s.
Proof.
  revert s; induction n as [|n IH]; intros [|c s]; simpl; try done; try lia.
  intros Hle. rewrite IH; [done | lia].
Qed.

Lemma str_drop_ge n s : (String.length s <= n)%nat -> drop n s = "".
Proof.
  revert s; induction n as [|n IH]; intros [|c s]; simpl; try done; try lia.
  intros Hle. apply IH. lia.
Qed.

Lemma str_take_app_le n s t :
  (n <= String.length s)%nat -> take n (s +:+ t) = take n s.
Proof.
  revert s; induction n as [|n IH]; intros s Hle.
  - by rewrite !str_take_0.
  - destruct s as [|c s]; simpl in Hle; [lia |].
    rewrite str_app_cons. simpl. rewrite IH; [done | lia].
Qed.

Lemma str_drop_app_le n s t :
  (n <= String.length s)%nat -> drop n (s +:+ t) = drop n s +:+ t.
Proof.
  revert s; induction n as [|n IH]; intros s Hle.
  - by rewrite !str_drop_0.
  - destruct s as [|c s]; simpl in Hle; [lia |].
    rewrite str_app_cons. simpl. apply IH. lia.
Qed.

Lemma str_take_take n m s : take n (take m s) = take (Nat.min n m) s.
Proof.
  revert m s; induction n as [|n IH]; intros [|m] [|c s]; simpl; try done.
  by rewrite IH.
Qed.

Lemma str_drop_take n m s : drop n (take m s) = take (m - n) (drop n s).
Proof.
  revert m s; induction n as [|n IH]; intros [|m] [|c s]; simpl; try done.
  by destruct (m - n)%nat.
Qed.

Lemma str_drop_drop n m s : drop n (drop m s) = drop (m + n) s.
Proof.
  revert s; induction m as [|m IH]; intros s.
  - by rewrite str_drop_0.
  - destruct s as [|c s]; simpl; [by destruct n | apply IH].
Qed.

(** Inside the string a slice bound is read as it stands. *)
Lemma slice_index_within s i :
  0 <= i <= len s -> slice_index s i = Z.to_nat i.
Proof.
  intros [H0 Hl]. unfold slice_index.
  destruct (Z.ltb_spec i 0); [lia |]. f_equal. lia.
Qed.

Lemma slice_to_within s i : 0 <= i <= len s -> slice_to s i = take (Z.to_nat i) s.
Proof. intros Hi. unfold slice_to. by rewrite slice_index_within. Qed.

Lemma slice_from_within s i :
  0 <= i <= len s -> slice_from s i = drop (Z.to_nat i) s.
Proof. intros Hi. unfold slice_from. by rewrite slice_index_within. Qed.

Lemma slice_within s i j :
  0 <= i <= len s -> 0 <= j <= len s ->
  slice s i j = take (Z.to_nat j - Z.to_nat i) (drop (Z.to_nat i) s).
Proof. intros Hi Hj. unfold slice. by rewrite !slice_index_within. Qed.

Lemma slice_0 s j : 0 <= j <= len s -> slice s 0 j = take (Z.to_nat j) s.
Proof.
  intros Hj. rewrite slice_within; [| pose proof (len_nonneg s); lia | done].
  change (Z.to_nat 0) with 0%nat. by rewrite str_drop_0, Nat.sub_0_r.
Qed.

Lemma slice_full s : slice s 0 (len s) = s.
Proof.
  rewrite slice_0; [| pose proof (len_nonneg s); lia].
  apply str_take_ge. unfold len. lia.
Qed.

Lemma slice_to_end s i : 0 <= i <= len s -> slice s i (len s) = slice_from s i.
Proof.
  intros Hi. rewrite slice_within, slice_from_within; [| lia ..].
  apply str_take_ge. rewrite str_length_drop. unfold len. lia.
Qed.

Lemma len_slice s i j : 0 <= i -> i <= j -> j <= len s -> len (slice s i j) = j - i.
Proof.
  intros H0 Hij Hj. rewrite slice_within by lia.
  unfold len in *. rewrite str_length_take, str_length_drop. lia.
Qed.

(** A slice splits at any point inside it. *)
Lemma slice_split s i j k :
  0 <= i -> i <= j -> j <= k -> k <= len s ->
  slice s i k = slice s i j +:+ slice s j k.
Proof.
  intros H0 Hij Hjk Hk. rewrite !slice_within by lia.
  rewrite <- (str_take_drop (Z.to_nat j - Z.to_nat i)
                (take (Z.to_nat k - Z.to_nat i) (drop (Z.to_nat i) s))).
  rewrite str_take_take, str_drop_take, str_drop_drop. f_equal.
  - f_equal. lia.
  - f_equal; [| f_equal]; lia.
Qed.

End PyStrFacts.

Import PyStrFacts.

(** ** The descending stable sort *)

Lemma span_gtb_true p q : span_gtb p q = true -> span_ge p q.
Proof.
  unfold span_gtb, span_ge.
  rewrite orb_true_iff, andb_true_iff, !Z.ltb_lt, Z.eqb_eq. lia.
Qed.

Lemma span_gtb_false p q : span_gtb p q = false -> span_ge q p.
Proof.
  unfold span_gtb, span_ge.
  rewrite orb_false_iff, andb_false_iff, !Z.ltb_ge, Z.eqb_neq. lia.
Qed.

Lemma span_ge_trans p q r : span_ge p q -> span_ge q r -> span_ge p r.
Proof. unfold span_ge. lia. Qed.

Lemma insert_desc_perm x l : insert_desc x l ≡ₚ x :: l.
Proof.
  induction l as [|y l IH]; simpl; [done |].
  destruct (span_gtb y.1 x.1); [| done].
  rewrite IH. apply perm_swap.
Qed.

Lemma sort_desc_perm l : sort_desc l ≡ₚ l.
Proof.
  induction l as [|x l IH]; simpl; [done |].
  fold (sort_desc l). by rewrite insert_desc_perm, IH.
Qed.

Lemma insert_desc_sorted x l :
  StronglySorted swap_ge l -> StronglySorted swap_ge (insert_desc x l).
Proof.
  induction 1 as [|y l Hs IH Hy]; simpl.
  - repeat constructor.
  - destruct (span_gtb y.1 x.1) eqn:Hc.
    + constructor; [done |].
      rewrite insert_desc_perm. constructor; [| done].
      by apply span_gtb_true.
    + apply span_gtb_false in Hc.
      constructor; [by constructor |].
      constructor; [done |].
      eapply Forall_impl; [exact Hy |].
      intros z Hz. by eapply span_ge_trans.
Qed.

Lemma sort_desc_sorted l : StronglySorted swap_ge (sort_desc l).
Proof.
  induction l as [|x l IH]; simpl; [constructor |].
  by apply insert_desc_sorted.
Qed.

(** ** The loop of [splice] *)

Lemma splice_loop_chain cur_left new_s l :
  chain cur_left l -> returns (splice_loop cur_left new_s l).
Proof.
  revert cur_left new_s; induction l as [|[sp rep] l IH]; intros cur new_s; simpl.
  - intros _. by eexists.
  - intros [Hle Hc]. destruct (Z.ltb_spec cur sp.2); [lia |]. by apply IH.
Qed.

Lemma splice_loop_not_chain cur_left new_s l :
  ~ chain cur_left l -> splice_loop cur_left new_s l = Raise NonDisjointSpans.
Proof.
  revert cur_left new_s; induction l as [|[sp rep] l IH]; intros cur new_s; simpl.
  - intros Hn. by destruct Hn.
  - intros Hn. destruct (Z.ltb_spec cur sp.2); [done |].
    apply IH. intros Hc. apply Hn. split; [lia | done].
Qed.

Lemma chain_dec cur_left l : chain cur_left l \/ ~ chain cur_left l.
Proof.
  revert cur_left; induction l as [|[sp rep] l IH]; intros cur; simpl; [by left |].
  destruct (Z.le_gt_cases sp.2 cur) as [Hle | Hgt]; [| right; lia].
  destruct (IH sp.1) as [Hc | Hn]; [by left | right; tauto].
Qed.

(** [splice] either returns or raises the one error of line 62. *)
Lemma splice_cases s swaps :
  (chain (len s) (sort_desc swaps) /\ returns (splice s swaps))
  \/ (~ chain (len s) (sort_desc swaps) /\ splice s swaps = Raise NonDisjointSpans).
Proof.
  unfold splice. destruct (chain_dec (len s) (sort_desc swaps)) as [Hc | Hn].
  - left. split; [done |]. by apply splice_loop_chain.
  - right. split; [done |]. by apply splice_loop_not_chain.
Qed.

Lemma splice_returns_chain s swaps :
  returns (splice s swaps) -> chain (len s) (sort_desc swaps).
Proof.
  intros [out Hout]. destruct (splice_cases s swaps) as [[Hc _] | [_ Hr]]; [done |].
  congruence.
Qed.

(** Ends stay below a bound that dominates the border and every start. *)
Lemma chain_ends_le m cur_left l :
  chain cur_left l -> cur_left <= m -> Forall (fun sw : swap => sw.1.1 <= m) l ->
  Forall (fun sw : swap => sw.1.2 <= m) l.
Proof.
  revert cur_left; induction l as [|[sp rep] l IH]; intros cur; simpl; [constructor |].
  intros [Hle Hc] Hm Hall. inversion_clear Hall as [|? ? Hsp Hl].
  constructor; [simpl in *; lia |]. eapply IH; eauto.
Qed.

(** With ordered spans the left border only moves to the left. *)
Lemma chain_ordered_ends_le cur_left l :
  chain cur_left l -> Forall (fun sw : swap => span_ordered sw.1) l ->
  Forall (fun sw : swap => sw.1.2 <= cur_left) l.
Proof.
  revert cur_left; induction l as [|[sp rep] l IH]; intros cur; simpl; [constructor |].
  intros [Hle Hc] Hall. inversion_clear Hall as [|? ? Hsp Hl].
  constructor; [done |]. unfold span_ordered in Hsp. simpl in Hsp.
  eapply Forall_impl; [by apply IH |]. simpl. intros; lia.
Qed.

Lemma sorted_starts_le (a : swap) l :
  Forall (swap_ge a) l -> Forall (fun sw : swap => sw.1.1 <= a.1.1) l.
Proof.
  intros Ha. eapply Forall_impl; [exact Ha |].
  unfold swap_ge, span_ge. intros; lia.
Qed.

(** ** Relations between every two entries of a list *)

Lemma pairwise_perm {A} (R : A -> A -> Prop) l k :
  (forall x y, R x y -> R y x) -> l ≡ₚ k -> pairwise R l -> pairwise R k.
Proof.
  intros Hsym. induction 1 as [|x l k Hp IH|x y l|l k m Hp1 IH1 Hp2 IH2]; simpl.
  - done.
  - intros [Hx Hl]. split; [by rewrite <- Hp | by apply IH].
  - intros [Hy [Hx Hl]]. inversion_clear Hy as [|? ? Hyx Hyl].
    repeat split; auto.
  - auto.
Qed.

Lemma pairwise_middle {A} (R : A -> A -> Prop) l1 a l2 b l3 :
  pairwise R (l1 ++ a :: l2 ++ b :: l3) -> R a b.
Proof.
  induction l1 as [|x l1 IH]; simpl.
  - intros [Ha _]. rewrite Forall_app, Forall_cons in Ha. tauto.
  - intros [_ Hl]. by apply IH.
Qed.

Lemma overlap_sym p q : overlap p q -> overlap q p.
Proof. intros [i [Hp Hq]]. by exists i. Qed.

Lemma disjoint_sym p q : disjoint p q -> disjoint q p.
Proof. unfold disjoint. tauto. Qed.

(** For spans that are not empty the two readings of disjointness agree. *)
Lemma disjoint_iff_not_overlap p q :
  p.1 < p.2 -> q.1 < q.2 -> disjoint p q <-> ~ overlap p q.
Proof.
  intros Hp Hq. unfold disjoint, overlap. split.
  - intros Hd [i Hi]. lia.
  - intros Hn. destruct (Z.le_gt_cases p.2 q.1) as [|H1]; [by left |].
    destruct (Z.le_gt_cases q.2 p.1) as [|H2]; [by right |].
    destruct Hn. exists (Z.max p.1 q.1). lia.
Qed.

Lemma overlap_not_disjoint p q : overlap p q -> ~ disjoint p q.
Proof. intros [i Hi]. unfold disjoint. lia. Qed.

(** When the loop runs to its end over a sorted list, no span of the list
    reaches into an earlier one. *)
Lemma chain_sorted_disjoint cur_left l :
  StronglySorted swap_ge l -> chain cur_left l -> pairwise_disjoint l.
Proof.
  intros Hs. revert cur_left. induction Hs as [|[sp rep] l Hs IH Hx]; intros cur; simpl.
  - done.
  - intros [Hle Hc]. split; [| by eapply IH].
    apply sorted_starts_le in Hx. simpl in Hx.
    pose proof (chain_ends_le sp.1 sp.1 l Hc (Z.le_refl _) Hx) as He.
    eapply Forall_impl; [exact He |]. simpl. intros sw Hsw. by right.
Qed.

(** Disjoint ordered spans below the border let the loop run to its end. *)
Lemma disjoint_sorted_chain cur_left l :
  StronglySorted swap_ge l -> pairwise_disjoint l ->
  Forall (fun sw : swap => span_ordered sw.1) l ->
  Forall (fun sw : swap => sw.1.2 <= cur_left) l ->
  chain cur_left l.
Proof.
  intros Hs. revert cur_left.
  induction Hs as [|[sp rep] l Hs IH Hx]; intros cur; simpl; [done |].
  intros [Hd Hp] Ho Hb.
  inversion_clear Ho as [|? ? Hsp Hol]. inversion_clear Hb as [|? ? Hspb Hbl].
  split; [done |]. apply IH; [done | done |].
  rewrite Forall_forall in *. intros sw Hin.
  specialize (Hd sw Hin). specialize (Hx sw Hin). specialize (Hol sw Hin).
  unfold disjoint, swap_ge, span_ge, span_ordered in *. simpl in *. lia.
Qed.

Lemma pairwise_disjoint_perm l k :
  l ≡ₚ k -> pairwise_disjoint l -> pairwise_disjoint k.
Proof. apply pairwise_perm. intros x y. apply disjoint_sym. Qed.

(** [splice] returns only on swaps whose spans are pairwise disjoint. *)
Lemma splice_returns_disjoint s swaps :
  returns (splice s swaps) -> pairwise_disjoint swaps.
Proof.
  intros Hr. apply splice_returns_chain in Hr.
  eapply pairwise_disjoint_perm; [apply sort_desc_perm |].
  eapply chain_sorted_disjoint; [apply sort_desc_sorted | exact Hr].
Qed.

(** ** Claims about [splice] *)

(** C3. For every string and every list of swaps in which some two spans
    overlap, that is, share a position of the original string, [splice]
    raises the [ValueError] with the message 'Non-disjoint spans detected',
    whichever the overlapping spans are. *)
Theorem splice_overlap_raises (s : string) (swaps : list swap) :
  some_overlap swaps ->
  splice s swaps = Raise (ValueError "Non-disjoint spans detected").
Proof.
  intros (l1 & a & l2 & b & l3 & -> & Hov).
  destruct (splice_cases s (l1 ++ a :: l2 ++ b :: l3)) as [[_ Hr] | [_ Hr]]; [| done].
  apply splice_returns_disjoint in Hr.
  apply pairwise_middle in Hr. by apply overlap_not_disjoint in Hov.
Qed.

Lemma splice_overlap_raises_witness :
  some_overlap [((2, 5), "X"); ((0, 1), "Y"); ((4, 6), "Z")]
  /\ splice "abcdefg" [((2, 5), "X"); ((0, 1), "Y"); ((4, 6), "Z")]
     = Raise (ValueError "Non-disjoint spans detected").
Proof.
  assert (some_overlap [((2, 5), "X"); ((0, 1), "Y"); ((4, 6), "Z")]) as Hov.
  { exists [], ((2, 5), "X"), [((0, 1), "Y")], ((4, 6), "Z"), [].
    split; [reflexivity |]. exists 4. simpl. lia. }
  split; [exact Hov |].
  exact (splice_overlap_raises "abcdefg" _ Hov).
Defined.

Lemma weave_snoc s pos l sp rep hi :
  weave s pos (l ++ [(sp, rep)]) hi
  = weave s pos l sp.1 +:+ rep +:+ slice s sp.2 hi.
Proof.
  revert pos; induction l as [|[sp' rep'] l IH]; intros pos; simpl; [done |].
  by rewrite IH, !str_app_assoc.
Qed.

(** A span inside [s] whose end is at or before the border [cur_left] is
    spliced into the untouched prefix of [new_s]. *)
Lemma splice_step s cur_left suf sp rep :
  0 <= sp.1 -> sp.1 <= sp.2 -> sp.2 <= cur_left -> cur_left <= len s ->
  slice_to (slice s 0 cur_left +:+ suf) sp.1 +:+ rep
    +:+ slice_from (slice s 0 cur_left +:+ suf) sp.2
  = slice s 0 sp.1 +:+ (rep +:+ slice s sp.2 cur_left +:+ suf).
Proof.
  intros H0 Ho Hc Hl.
  assert (len (slice s 0 cur_left) = cur_left) as Hlen.
  { rewrite len_slice; lia. }
  assert (String.length (slice s 0 cur_left) = Z.to_nat cur_left) as Hlen'.
  { unfold len in Hlen. lia. }
  rewrite slice_to_within, slice_from_within by (rewrite len_app; pose proof (len_nonneg suf); lia).
  rewrite str_take_app_le, str_drop_app_le by lia.
  rewrite !slice_0 by lia.
  rewrite str_take_take, str_drop_take.
  rewrite slice_within by lia.
  by rewrite Nat.min_l by lia.
Qed.

Lemma splice_loop_weave s cur_left suf l :
  cur_left <= len s ->
  Forall (fun sw : swap => 0 <= sw.1.1 /\ sw.1.1 <= sw.1.2) l ->
  chain cur_left l ->
  splice_loop cur_left (slice s 0 cur_left +:+ suf) l
  = Return (weave s 0 (rev l) cur_left +:+ suf).
Proof.
  revert cur_left suf; induction l as [|[sp rep] l IH]; intros cur suf Hl Hall; simpl.
  - done.
  - intros [Hle Hc]. inversion_clear Hall as [|? ? [H0 Ho] Hall'].
    simpl in H0, Ho.
    destruct (Z.ltb_spec cur sp.2); [lia |].
    rewrite splice_step by lia.
    rewrite IH by (done || lia).
    by rewrite weave_snoc, !str_app_assoc.
Qed.

Lemma replaced_length_perm l k : l ≡ₚ k -> replaced_length l = replaced_length k.
Proof.
  induction 1 as [|x l k Hp IH|x y l|l k m Hp1 IH1 Hp2 IH2]; simpl in *; lia.
Qed.

Lemma replacement_length_perm l k :
  l ≡ₚ k -> replacement_length l = replacement_length k.
Proof.
  induction 1 as [|x l k Hp IH|x y l|l k m Hp1 IH1 Hp2 IH2]; simpl in *; lia.
Qed.

Lemma len_weave_rev s cur_left l :
  0 <= cur_left -> cur_left <= len s ->
  Forall (fun sw : swap => 0 <= sw.1.1 /\ sw.1.1 <= sw.1.2) l ->
  chain cur_left l ->
  len (weave s 0 (rev l) cur_left)
  = cur_left - replaced_length l + replacement_length l.
Proof.
  revert cur_left; induction l as [|[sp rep] l IH]; intros cur Hc0 Hl Hall; simpl.
  - intros _. rewrite len_slice; lia.
  - intros [Hle Hc]. inversion_clear Hall as [|? ? [H0 Ho] Hall'].
    simpl in H0, Ho.
    rewrite weave_snoc, !len_app, IH by (done || lia).
    rewrite len_slice by lia. lia.
Qed.

Lemma left_to_right_snoc pos l sp rep hi :
  left_to_right pos l sp.1 -> sp.1 <= sp.2 -> sp.2 <= hi ->
  left_to_right pos (l ++ [(sp, rep)]) hi.
Proof.
  revert pos; induction l as [|[sp' rep'] l IH]; intros pos; simpl.
  - tauto.
  - intros (? & ? & ?) ? ?. repeat split; auto.
Qed.

Lemma chain_left_to_right cur_left l :
  0 <= cur_left ->
  Forall (fun sw : swap => 0 <= sw.1.1 /\ sw.1.1 <= sw.1.2) l ->
  chain cur_left l -> left_to_right 0 (rev l) cur_left.
Proof.
  revert cur_left; induction l as [|[sp rep] l IH]; intros cur Hc0 Hall; simpl.
  - done.
  - intros [Hle Hc]. inversion_clear Hall as [|? ? [H0 Ho] Hall'].
    apply left_to_right_snoc; auto.
Qed.

(** What [splice] does on disjoint spans inside the string. *)
Lemma splice_within_disjoint s swaps :
  Forall (fun sw : swap => span_within s sw.1) swaps ->
  pairwise_disjoint swaps ->
  let l := sort_desc swaps in
  chain (len s) l
  /\ Forall (fun sw : swap => 0 <= sw.1.1 /\ sw.1.1 <= sw.1.2) l
  /\ splice s swaps = Return (weave s 0 (rev l) (len s)).
Proof.
  intros Hin Hd l.
  assert (Forall (fun sw : swap => span_within s sw.1) l) as Hin'.
  { unfold l. by rewrite sort_desc_perm. }
  assert (chain (len s) l) as Hc.
  { apply disjoint_sorted_chain.
    - apply sort_desc_sorted.
    - eapply pairwise_disjoint_perm; [symmetry; apply sort_desc_perm | done].
    - eapply Forall_impl; [exact Hin' |]. unfold span_within, span_ordered. intros; lia.
    - eapply Forall_impl; [exact Hin' |]. unfold span_within. intros; lia. }
  assert (Forall (fun sw : swap => 0 <= sw.1.1 /\ sw.1.1 <= sw.1.2) l) as Ho.
  { eapply Forall_impl; [exact Hin' |]. unfold span_within. intros; lia. }
  split; [done |]. split; [done |].
  unfold splice. fold l.
  rewrite <- (str_app_nil_r s) at 2. rewrite <- (slice_full s) at 2.
  rewrite splice_loop_weave by (done || lia).
  by rewrite str_app_nil_r.
Qed.

(** C2. For every string [s] and every list of swaps whose spans lie inside
    [s] and are pairwise disjoint, [splice] returns the string in which each
    span's text has given way to its replacement and all other text of [s] is
    kept in its order: there is an arrangement [asc] of the swaps from left to
    right such that the result is the text before the first span, the first
    replacement, the text between the first and the second span, and so on to
    the end of [s].  Its length is the length of [s] minus the total length
    of the spans plus the total length of the replacements. *)
Theorem splice_disjoint_spec (s : string) (swaps : list swap) :
  Forall (fun sw : swap => span_within s sw.1) swaps ->
  pairwise_disjoint swaps ->
  exists asc out,
    asc ≡ₚ swaps
    /\ left_to_right 0 asc (len s)
    /\ splice s swaps = Return out
    /\ out = weave s 0 asc (len s)
    /\ len out = len s - replaced_length swaps + replacement_length swaps.
Proof.
  intros Hin Hd.
  destruct (splice_within_disjoint s swaps Hin Hd) as (Hc & Ho & Hs).
  exists (rev (sort_desc swaps)), (weave s 0 (rev (sort_desc swaps)) (len s)).
  pose proof (len_nonneg s) as Hn.
  split; [etrans; [symmetry; apply Permutation_rev | apply sort_desc_perm] |].
  split; [by apply chain_left_to_right |].
  split; [done |]. split; [done |].
  rewrite len_weave_rev by (done || lia).
  by rewrite (replaced_length_perm _ _ (sort_desc_perm swaps)),
             (replacement_length_perm _ _ (sort_desc_perm swaps)).
Qed.

(** On spans inside the string, [splice] returns exactly when the spans are
    pairwise disjoint: this is the disjointness that line 59 checks. *)
Lemma splice_returns_iff_disjoint s swaps :
  Forall (fun sw : swap => span_within s sw.1) swaps ->
  returns (splice s swaps) <-> pairwise_disjoint swaps.
Proof.
  intros Hin. split; [apply splice_returns_disjoint |].
  intros Hd. destruct (splice_within_disjoint s swaps Hin Hd) as (_ & _ & Hs).
  by eexists.
Qed.

Lemma splice_disjoint_spec_witness :
  exists asc out,
    asc ≡ₚ [((19, 24), "$state_19"); ((0, 4), "which")]
    /\ left_to_right 0 asc (len "what states border texas ?")
    /\ splice "what states border texas ?"
              [((19, 24), "$state_19"); ((0, 4), "which")] = Return out
    /\ out = weave "what states border texas ?" 0 asc
                   (len "what states border texas ?")
    /\ len out = len "what states border texas ?"
                 - replaced_length [((19, 24), "$state_19"); ((0, 4), "which")]
                 + replacement_length [((19, 24), "$state_19"); ((0, 4), "which")].
Proof.
  apply (splice_disjoint_spec "what states border texas ?"
           [((19, 24), "$state_19"); ((0, 4), "which")]).
  - repeat constructor; vm_compute; congruence.
  - unfold pairwise_disjoint. simpl.
    split; [| split; [constructor | exact I]].
    constructor; [| constructor]. right. simpl. lia.
Defined.

(** An empty span strictly inside another span is not disjoint from it: its
    insertion point lies in the text that the other span replaces. *)
Example splice_empty_span_inside :
  splice "abcdef" [((3, 3), "X"); ((2, 5), "Y")] = Raise NonDisjointSpans
  /\ splice "abcdef" [((2, 2), "X"); ((2, 5), "Y")] = Return "abXYf".
Proof. split; reflexivity. Qed.

Example splice_weave_example :
  splice "what states border texas ?" [((19, 24), "$state_19"); ((0, 4), "which")]
  = Return "which states border $state_19 ?".
Proof. reflexivity. Qed.

(** C10, as amended. When every span has its start at or before its end,
    [splice] raises the [ValueError] of line 62 as soon as the end of some
    span exceeds the length of the string, also when the spans are pairwise
    disjoint; put the other way, it returns only when every span ends within
    the string. *)
Theorem splice_end_beyond_len_raises (s : string) (swaps : list swap) :
  Forall (fun sw : swap => span_ordered sw.1) swaps ->
  (Exists (fun sw : swap => len s < sw.1.2) swaps ->
   splice s swaps = Raise (ValueError "Non-disjoint spans detected"))
  /\ (returns (splice s swaps) ->
      Forall (fun sw : swap => sw.1.2 <= len s) swaps).
Proof.
  intros Ho.
  assert (returns (splice s swaps) ->
          Forall (fun sw : swap => sw.1.2 <= len s) swaps) as Hret.
  { intros Hr. apply splice_returns_chain in Hr.
    rewrite <- (sort_desc_perm swaps).
    apply chain_ordered_ends_le; [done |]. by rewrite sort_desc_perm. }
  split; [| done].
  intros Hex. destruct (splice_cases s swaps) as [[_ Hr] | [_ Hr]]; [| done].
  apply Hret in Hr. rewrite Exists_exists in Hex. destruct Hex as (sw & Hin & Hgt).
  rewrite Forall_forall in Hr. specialize (Hr sw Hin). lia.
Qed.

Lemma splice_end_beyond_len_raises_witness :
  splice "abc" [((0, 1), "X"); ((2, 4), "Y")]
  = Raise (ValueError "Non-disjoint spans detected").
Proof.
  apply (splice_end_beyond_len_raises "abc" [((0, 1), "X"); ((2, 4), "Y")]).
  - repeat constructor; vm_compute; congruence.
  - apply Exists_cons_tl, Exists_cons_hd. vm_compute. reflexivity.
Defined.

(** C10, as stated, fails: the span [(50, 60)] ends beyond the three
    characters of the string and does not meet the span [(100, 2)], yet
    [splice] returns. After the span [(100, 2)], whose end is inside the
    string, the left border stands at 100. *)
Lemma splice_end_beyond_len_counterexample :
  ~ claim_end_beyond_len_raises "abc" [((100, 2), "X"); ((50, 60), "Y")].
Proof.
  unfold claim_end_beyond_len_raises. intros Hclaim.
  assert (splice "abc" [((100, 2), "X"); ((50, 60), "Y")] = Return "abcXcY") as Hrun
    by reflexivity.
  rewrite Hclaim in Hrun; [discriminate |].
  apply Exists_cons_tl, Exists_cons_hd. vm_compute. reflexivity.
Qed.

(** ** Grammars under construction *)

Lemma rule_list_add_rule g cat x y :
  rule_list (add_rule g cat x y) = rule_list g ++ [(cat, x, y)].
Proof. reflexivity. Qed.

Lemma bind_Return {A B} (m : result A) (f : A -> result B) b :
  m ≫= f = Return b -> exists a, m = Return a /\ f a = Return b.
Proof. destruct m as [a | e]; simpl; [eauto | discriminate]. Qed.

(** A loop whose body only adds rules adds, for each element it goes through,
    the rules of that element, in order. *)
Lemma foldlM_rule_list {A} (f : Grammar -> A -> result Grammar)
    (P : A -> list rule -> Prop) :
  (forall g a g', f g a = Return g' ->
     exists added, rule_list g' = rule_list g ++ added /\ P a added) ->
  forall l g g', foldlM f g l = Return g' ->
    exists chunks, rule_list g' = rule_list g ++ concat chunks /\ Forall2 P l chunks.
Proof.
  intros Hf. induction l as [|a l IH]; intros g g'; simpl.
  - intros [= <-]. exists []. split; [by rewrite List.app_nil_r | constructor].
  - intros Hb. apply bind_Return in Hb as (g1 & Hg1 & Hrest).
    apply Hf in Hg1 as (added & Hadd & HP).
    apply IH in Hrest as (chunks & Hch & HF).
    exists (added :: chunks). split; [| by constructor].
    rewrite Hch, Hadd. simpl. by rewrite <- List.app_assoc.
Qed.

Lemma Forall2_chunk {A} (P : A -> list rule -> Prop) l chunks a :
  Forall2 P l chunks -> a ∈ l ->
  exists added, P a added /\ forall r, r ∈ added -> r ∈ concat chunks.
Proof.
  induction 1 as [|b added l chunks Hb HF IH]; intros Hin.
  - by apply elem_of_nil in Hin.
  - apply elem_of_cons in Hin as [-> | Hin].
    + exists added. split; [done |]. intros r Hr. simpl. apply elem_of_app. by left.
    + destruct (IH Hin) as (added' & HP & Hsub). exists added'. split; [done |].
      intros r Hr. simpl. apply elem_of_app. right. by apply Hsub.
Qed.

Section InductionFacts.
Context `{R : GrammarRoot} `{D : Domain} `{Ord : SetOrder}.

Lemma add_productions_rule_list productions g :
  rule_list (add_productions productions g) = rule_list g ++ productions.
Proof.
  unfold add_productions. revert g.
  induction productions as [|[[cat x] y] l IH]; intros g; simpl.
  - by rewrite List.app_nil_r.
  - rewrite IH. simpl. by rewrite <- List.app_assoc.
Qed.

Lemma add_entity_rules_rule_list dataset g :
  rule_list (add_entity_rules dataset g) = rule_list g ++ entity_rules dataset.
Proof.
  unfold add_entity_rules, entity_rules. revert g.
  induction dataset as [|[x y] l IH]; intros g; simpl.
  - by rewrite List.app_nil_r.
  - rewrite IH. rewrite List.app_assoc. f_equal.
    generalize (get_entity_alignments x y). clear. intros als. revert g.
    induction als as [|[[cat xs] ys] als IH]; intros g; simpl.
    + by rewrite List.app_nil_r.
    + rewrite IH. simpl. by rewrite <- List.app_assoc.
Qed.

Lemma add_template_Return alignments g r g' :
  add_template alignments g r = Return g' ->
  exists t, templated alignments r t /\ rule_list g' = rule_list g ++ [t].
Proof.
  destruct r as [[cat x] y]. unfold add_template. intros Hb.
  apply bind_Return in Hb as (x_new & Hx & Hb).
  apply bind_Return in Hb as (y_new & Hy & Hb).
  injection Hb as <-. exists (cat, x_new, y_new). split; [| done].
  by exists x_new, y_new.
Qed.

Lemma induce_entity_grammar_rule_list dataset start g' :
  induce_entity_grammar dataset start = Return g' ->
  exists chunks,
    rule_list g' = entity_rules dataset ++ concat chunks
    /\ Forall2 (fun r added =>
                  exists t, templated (get_entity_alignments r.1.2 r.2) r t
                            /\ added = [t])
               (rule_list start) chunks.
Proof.
  unfold induce_entity_grammar. intros Hf.
  eapply foldlM_rule_list in Hf as (chunks & Hl & HF).
  - exists chunks. split; [| exact HF].
    by rewrite Hl, add_entity_rules_rule_list.
  - intros g [[cat x] y] g1 Hg1. simpl.
    apply add_template_Return in Hg1 as (t & Ht & Hl). eauto.
Qed.

Lemma induce_nesting_grammar_rule_list start g' :
  induce_nesting_grammar start = Return g' ->
  exists chunks,
    rule_list g' = concat chunks
    /\ Forall2 (fun r added =>
                  exists t,
                    templated (get_nesting_alignments r.1.2 r.2).1 r t
                    /\ added = (get_nesting_alignments r.1.2 r.2).2 ++ [t])
               (rule_list start) chunks.
Proof.
  unfold induce_nesting_grammar. intros Hf.
  eapply foldlM_rule_list in Hf as (chunks & Hl & HF).
  - exists chunks. split; [exact Hl | exact HF].
  - intros g [[cat x] y] g1 Hg1. simpl.
    destruct (get_nesting_alignments x y) as [als prods].
    apply add_template_Return in Hg1 as (t & Ht & Hl).
    exists (prods ++ [t]). split; [| by exists t].
    by rewrite Hl, add_productions_rule_list, <- List.app_assoc.
Qed.

End InductionFacts.

(** ** Splicing once, and back *)

(** When [splice] returns on spans inside the string, its result is the
    string with the spans' texts replaced and the rest kept in order. *)
Lemma splice_returns_weave s swaps out :
  splice s swaps = Return out ->
  Forall (fun sw : swap => span_within s sw.1) swaps ->
  exists asc, asc ≡ₚ swaps /\ left_to_right 0 asc (len s) /\ out = weave s 0 asc (len s).
Proof.
  intros Hs Hin.
  assert (pairwise_disjoint swaps) as Hd.
  { apply (splice_returns_disjoint s). by exists out. }
  destruct (splice_within_disjoint s swaps Hin Hd) as (Hc & Ho & Hs').
  exists (rev (sort_desc swaps)).
  split; [etrans; [symmetry; apply Permutation_rev | apply sort_desc_perm] |].
  split; [apply chain_left_to_right; [apply len_nonneg | done | done] |].
  congruence.
Qed.

Lemma splice_single s sp rep :
  sp.2 <= len s ->
  splice s [(sp, rep)] = Return (slice_to s sp.1 +:+ rep +:+ slice_from s sp.2).
Proof.
  intros Hle. unfold splice. simpl.
  destruct (Z.ltb_spec (len s) sp.2); [lia | done].
Qed.

Lemma str_drop_all s : drop (String.length s) s = "".
Proof. by apply str_drop_ge. Qed.

Lemma str_take_all s : take (String.length s) s = s.
Proof. by apply str_take_ge. Qed.

(** A string is its text before a span, the span's text and the text after. *)
Lemma slice_three s sp :
  span_within s sp ->
  slice_to s sp.1 +:+ slice s sp.1 sp.2 +:+ slice_from s sp.2 = s.
Proof.
  intros (H0 & Ho & Hl).
  rewrite <- (slice_to_end s sp.2) by lia.
  rewrite <- slice_split by lia.
  rewrite slice_to_within, <- slice_0 by lia.
  rewrite <- slice_split by lia. apply slice_full.
Qed.

(** A replacement spliced into [s] stands at the start offset of its span, and
    splicing the span's own text over it gives [s] back. *)
Lemma splice_single_back s sp rep :
  span_within s sp ->
  let t := slice_to s sp.1 +:+ rep +:+ slice_from s sp.2 in
  slice t sp.1 (sp.1 + len rep) = rep
  /\ splice t [((sp.1, sp.1 + len rep), slice s sp.1 sp.2)] = Return s.
Proof.
  intros Hw t. pose proof Hw as (H0 & Ho & Hl).
  pose proof (len_nonneg rep) as Hrep.
  pose proof (len_nonneg (slice_from s sp.2)) as Htail.
  assert (String.length (slice_to s sp.1) = Z.to_nat sp.1) as Hpre.
  { rewrite slice_to_within, str_length_take by lia. unfold len in Hl. lia. }
  assert (len t = sp.1 + len rep + len (slice_from s sp.2)) as Hlen.
  { unfold t. rewrite !len_app. unfold len at 1. lia. }
  assert (drop (Z.to_nat sp.1) t = rep +:+ slice_from s sp.2) as Hdrop.
  { unfold t. rewrite str_drop_app_le by lia.
    by rewrite <- Hpre, str_drop_all. }
  assert (take (Z.to_nat sp.1) t = slice_to s sp.1) as Htake.
  { unfold t. rewrite str_take_app_le by lia.
    by rewrite <- Hpre, str_take_all. }
  split.
  - rewrite slice_within by lia. rewrite Hdrop.
    replace (Z.to_nat (sp.1 + len rep) - Z.to_nat sp.1)%nat
      with (String.length rep) by (unfold len; lia).
    rewrite str_take_app_le by lia. apply str_take_all.
  - rewrite splice_single by (simpl; lia). simpl.
    rewrite slice_to_within, slice_from_within by lia.
    rewrite Htake.
    replace (Z.to_nat (sp.1 + len rep)) with (Z.to_nat sp.1 + String.length rep)%nat
      by (unfold len; lia).
    rewrite <- str_drop_drop, Hdrop.
    rewrite str_drop_app_le by lia. rewrite str_drop_all, str_app_nil_l.
    f_equal. by apply slice_three.
Qed.

(** ** Claims about the entity and nesting strategies *)

Lemma str_app_inv_tail s1 s2 t : s1 +:+ t = s2 +:+ t -> s1 = s2.
Proof.
  revert s2; induction s1 as [|c s1 IH]; intros [|c' s2] Heq.
  - done.
  - apply (f_equal String.length) in Heq.
    rewrite str_app_nil_l, str_length_app in Heq. simpl in Heq. lia.
  - apply (f_equal String.length) in Heq.
    rewrite str_app_nil_l, str_length_app in Heq. simpl in Heq. lia.
  - rewrite !str_app_cons in Heq. injection Heq as -> Heq. f_equal. by apply IH.
Qed.

Section StrategyFacts.
Context `{R : GrammarRoot} `{D : Domain} `{Ord : SetOrder}.

Lemma elem_of_x_swaps alignments sw :
  sw ∈ x_swaps alignments <->
  exists c xs ys, (c, xs, ys) ∈ alignments /\ sw = (xs, placeholder c xs).
Proof.
  unfold x_swaps. rewrite elem_of_list_of_set, list_elem_of_fmap. split.
  - intros ([[c xs] ys] & -> & Hin). by exists c, xs, ys.
  - intros (c & xs & ys & Hin & ->). by exists (c, xs, ys).
Qed.

Lemma x_swaps_perm alignments :
  x_swaps alignments
  ≡ₚ remove_dups (map (fun '(c, xs, ys) => (xs, placeholder c xs)) alignments).
Proof.
  apply NoDup_Permutation.
  - apply list_of_set_NoDup.
  - apply NoDup_remove_dups.
  - intros sw. unfold x_swaps. by rewrite elem_of_list_of_set, elem_of_remove_dups.
Qed.

Lemma x_swaps_single c xs ys : x_swaps [(c, xs, ys)] = [(xs, placeholder c xs)].
Proof. apply Permutation_singleton_r. by rewrite x_swaps_perm. Qed.

Lemma y_tokens_eq alignments :
  y_tokens alignments = map (fun '(c, xs, ys) => placeholder c xs) alignments.
Proof.
  unfold y_tokens, y_swaps. rewrite <- list_fmap_compose.
  apply list_fmap_ext. by intros i [[c xs] ys] _.
Qed.

Lemma same_token_set alignments t :
  t ∈ x_tokens alignments <-> t ∈ y_tokens alignments.
Proof.
  unfold x_tokens. rewrite y_tokens_eq, !list_elem_of_fmap. split.
  - intros (sw & -> & Hin). apply elem_of_x_swaps in Hin as (c & xs & ys & Hin & ->).
    by exists (c, xs, ys).
  - intros ([[c xs] ys] & -> & Hin). exists (xs, placeholder c xs).
    split; [done |]. apply elem_of_x_swaps. by exists c, xs, ys.
Qed.

Lemma placeholder_anchor_inj c c' xs xs' :
  (xs, placeholder c xs) = (xs', placeholder c' xs') -> (c, xs) = (c', xs').
Proof.
  intros [= -> Heq]. f_equal. unfold placeholder in Heq.
  by apply str_app_inv_tail in Heq.
Qed.

Lemma same_token_multiset alignments :
  NoDup (x_anchors alignments) -> x_tokens alignments ≡ₚ y_tokens alignments.
Proof.
  intros Hnd. unfold x_tokens. rewrite y_tokens_eq.
  assert (x_swaps alignments
          ≡ₚ (fun a : string * span => (a.2, placeholder a.1 a.2))
               <$> x_anchors alignments) as ->.
  { apply NoDup_Permutation.
    - apply list_of_set_NoDup.
    - apply NoDup_fmap_2_strong; [| done].
      intros [c xs] [c' xs'] _ _ Heq. by apply placeholder_anchor_inj.
    - intros sw. unfold x_swaps, x_anchors.
      rewrite elem_of_list_of_set, <- list_fmap_compose.
      rewrite !list_elem_of_fmap. split.
      + intros ([[c xs] ys] & -> & Hin). by exists (c, xs, ys).
      + intros ([[c xs] ys] & -> & Hin). by exists (c, xs, ys). }
  unfold x_anchors. rewrite <- !list_fmap_compose.
  erewrite list_fmap_ext; [reflexivity |]. by intros i [[c xs] ys] _.
Qed.

Lemma templated_in_entity_grammar dataset start g' r :
  induce_entity_grammar dataset start = Return g' -> r ∈ rule_list start ->
  exists t, templated (get_entity_alignments r.1.2 r.2) r t /\ t ∈ rule_list g'.
Proof.
  intros Hg Hin.
  apply induce_entity_grammar_rule_list in Hg as (chunks & Hl & HF).
  destruct (Forall2_chunk _ _ _ _ HF Hin) as (added & (t & Ht & ->) & Hsub).
  exists t. split; [done |]. rewrite Hl. apply elem_of_app. right.
  apply Hsub. by apply list_elem_of_singleton.
Qed.

Lemma templated_in_nesting_grammar start g' r :
  induce_nesting_grammar start = Return g' -> r ∈ rule_list start ->
  exists t, templated (get_nesting_alignments r.1.2 r.2).1 r t
            /\ t ∈ rule_list g'
            /\ forall p, p ∈ (get_nesting_alignments r.1.2 r.2).2 -> p ∈ rule_list g'.
Proof.
  intros Hg Hin.
  apply induce_nesting_grammar_rule_list in Hg as (chunks & Hl & HF).
  destruct (Forall2_chunk _ _ _ _ HF Hin) as (added & (t & Ht & ->) & Hsub).
  exists t. split; [done |]. rewrite Hl. split.
  - apply Hsub. apply elem_of_app. right. by apply list_elem_of_singleton.
  - intros p Hp. apply Hsub. apply elem_of_app. by left.
Qed.

(** C4, as amended. The templated rule that the entity and the nesting
    strategy insert for a base rule has its x side and its y side spliced
    with the same set of placeholder tokens: every token put into one side
    is put into the other.  The two sides are given the same multiset of
    tokens when no (inner category, x-span) pair occurs twice among the
    alignments, that is, when no x-span is aligned to several y-spans. *)
Theorem template_same_token_set (alignments : list alignment)
    (g : Grammar) (r : rule) (g' : Grammar) :
  add_template alignments g r = Return g' ->
  exists x_new y_new,
    rule_list g' = rule_list g ++ [(r.1.1, x_new, y_new)]
    /\ splice r.1.2 (x_swaps alignments) = Return x_new
    /\ splice r.2 (y_swaps alignments) = Return y_new
    /\ (forall t, t ∈ x_tokens alignments <-> t ∈ y_tokens alignments)
    /\ (NoDup (x_anchors alignments) ->
        x_tokens alignments ≡ₚ y_tokens alignments).
Proof.
  intros Hg. apply add_template_Return in Hg as (t & (x_new & y_new & Hx & Hy & ->) & Hl).
  exists x_new, y_new. repeat split; try done.
  - by apply same_token_set.
  - by apply same_token_set.
  - apply same_token_multiset.
Qed.

Lemma pairwise_elem_of {A} (Rel : A -> A -> Prop) l x y :
  (forall a b, Rel a b -> Rel b a) -> pairwise Rel l ->
  x ∈ l -> y ∈ l -> x <> y -> Rel x y.
Proof.
  intros Hsym. induction l as [|a l IH]; simpl; intros Hp Hx Hy Hne.
  - by apply elem_of_nil in Hx.
  - destruct Hp as [Ha Hl]. rewrite Forall_forall in Ha.
    apply elem_of_cons in Hx as [-> | Hx]; apply elem_of_cons in Hy as [-> | Hy].
    + done.
    + by apply Ha.
    + apply Hsym. by apply Ha.
    + by apply IH.
Qed.

Lemma length_remove_dups_fmap {A B C} `{EqDecision B, EqDecision C}
    (f : A -> B) (h : A -> C) (l : list A) :
  (forall a b, a ∈ l -> b ∈ l -> f a = f b <-> h a = h b) ->
  length (remove_dups (f <$> l)) = length (remove_dups (h <$> l)).
Proof.
  induction l as [|x l IH]; intros Hfh; [done |].
  assert (length (remove_dups (f <$> l)) = length (remove_dups (h <$> l))) as IH'.
  { apply IH. intros a b Ha Hb. apply Hfh; by apply list_elem_of_further. }
  assert (f x ∈ f <$> l <-> h x ∈ h <$> l) as Hin.
  { rewrite !list_elem_of_fmap. split.
    - intros (b & Heq & Hb). exists b. split; [| done].
      apply Hfh; [apply list_elem_of_here | by apply list_elem_of_further | done].
    - intros (b & Heq & Hb). exists b. split; [| done].
      apply Hfh; [apply list_elem_of_here | by apply list_elem_of_further | done]. }
  rewrite !fmap_cons. simpl.
  destruct (decide_rel elem_of (f x) (f <$> l)) as [Hf | Hf];
    destruct (decide_rel elem_of (h x) (h <$> l)) as [Hh | Hh]; simpl;
    try tauto; by rewrite IH'.
Qed.

(** Where C5 holds as it is stated: when no x-span is empty and the x side
    can be spliced, the x side is given one placeholder per distinct
    (inner category, x-span start) key. *)
Lemma one_placeholder_per_key_nonempty alignments x_str :
  Forall (fun al : alignment => al.1.2.1 < al.1.2.2) alignments ->
  returns (splice x_str (x_swaps alignments)) ->
  claim_one_placeholder_per_key alignments.
Proof.
  intros Hne Hr. unfold claim_one_placeholder_per_key, x_keys.
  rewrite (Permutation_length (x_swaps_perm alignments)).
  apply length_remove_dups_fmap.
  intros [[c xs] ys] [[c' xs'] ys'] Ha Hb. split.
  - intros Heq. apply placeholder_anchor_inj in Heq. by injection Heq as -> ->.
  - intros [= -> Hstart].
    destruct (decide (xs = xs')) as [-> | Hdiff]; [done |].
    apply splice_returns_disjoint in Hr.
    assert (disjoint xs xs') as Hd.
    { apply (pairwise_elem_of (fun a b : swap => disjoint a.1 b.1)
               (x_swaps alignments) (xs, placeholder c' xs) (xs', placeholder c' xs')).
      - intros a b. apply disjoint_sym.
      - exact Hr.
      - apply elem_of_x_swaps. by exists c', xs, ys.
      - apply elem_of_x_swaps. by exists c', xs', ys'.
      - congruence. }
    rewrite Forall_forall in Hne.
    pose proof (Hne _ Ha) as H1. pose proof (Hne _ Hb) as H2.
    unfold disjoint in Hd. simpl in *. lia.
Qed.

(** C5, as amended. For each base rule the entity strategy builds the
    templated rule by splicing into [x_str] one placeholder per distinct
    pair of an x-span and its token, so that an x-span is replaced once
    even when it is aligned to several y-spans, and by splicing into
    [y_str] one placeholder per alignment, in their order and with no
    deduplication.  The token of an alignment is, on both sides,
    ['{inner_category}_{x_span_start}']. *)
Theorem entity_template_placeholders (dataset : list example)
    (start g' : Grammar) (cat x_str y_str : string) :
  induce_entity_grammar dataset start = Return g' ->
  (cat, x_str, y_str) ∈ rule_list start ->
  let alignments := get_entity_alignments x_str y_str in
  NoDup (x_swaps alignments)
  /\ (forall sw, sw ∈ x_swaps alignments <->
        exists c xs ys, (c, xs, ys) ∈ alignments
                        /\ sw = (xs, c +:+ "_" +:+ fmt_d xs.1))
  /\ y_swaps alignments
     = map (fun al : alignment => (al.2, al.1.1 +:+ "_" +:+ fmt_d al.1.2.1))
           alignments
  /\ (exists x_new y_new,
        splice x_str (x_swaps alignments) = Return x_new
        /\ splice y_str (y_swaps alignments) = Return y_new
        /\ (cat, x_new, y_new) ∈ rule_list g').
Proof.
  intros Hg Hin als.
  split; [apply list_of_set_NoDup |].
  split; [intros sw; apply elem_of_x_swaps |].
  split.
  - unfold y_swaps. apply list_fmap_ext. by intros i [[c xs] ys] _.
  - destruct (templated_in_entity_grammar _ _ _ _ Hg Hin)
      as (t & (x_new & y_new & Hx & Hy & ->) & Ht).
    by exists x_new, y_new.
Qed.

(** C6. Entity induction round trip.  For a parent rule of the base grammar
    and a single alignment within it, the templated rule holds the
    placeholder at the start offset of the alignment's x-span (of its
    y-span), and splicing the alignment's own x-span text (y-span text) of
    the parent over that placeholder gives the parent's [x_str] ([y_str])
    back. *)
Theorem entity_round_trip (dataset : list example) (start g' : Grammar)
    (cat x_str y_str c : string) (x_span y_span : span) :
  induce_entity_grammar dataset start = Return g' ->
  (cat, x_str, y_str) ∈ rule_list start ->
  get_entity_alignments x_str y_str = [(c, x_span, y_span)] ->
  span_within x_str x_span ->
  span_within y_str y_span ->
  let token := placeholder c x_span in
  exists x_new y_new,
    (cat, x_new, y_new) ∈ rule_list g'
    /\ x_new = slice_to x_str x_span.1 +:+ token +:+ slice_from x_str x_span.2
    /\ y_new = slice_to y_str y_span.1 +:+ token +:+ slice_from y_str y_span.2
    /\ slice x_new x_span.1 (x_span.1 + len token) = token
    /\ slice y_new y_span.1 (y_span.1 + len token) = token
    /\ splice x_new [((x_span.1, x_span.1 + len token),
                      slice x_str x_span.1 x_span.2)] = Return x_str
    /\ splice y_new [((y_span.1, y_span.1 + len token),
                      slice y_str y_span.1 y_span.2)] = Return y_str.
Proof.
  intros Hg Hin Hal Hx Hy token.
  destruct (templated_in_entity_grammar _ _ _ _ Hg Hin)
    as (t & (x_new & y_new & Hsx & Hsy & ->) & Ht).
  simpl in Hsx, Hsy. rewrite Hal in Hsx, Hsy.
  rewrite x_swaps_single in Hsx. simpl in Hsy.
  rewrite splice_single in Hsx by apply Hx.
  rewrite splice_single in Hsy by apply Hy.
  injection Hsx as <-. injection Hsy as <-.
  destruct (splice_single_back x_str x_span token Hx) as [Hx1 Hx2].
  destruct (splice_single_back y_str y_span token Hy) as [Hy1 Hy2].
  eexists _, _. repeat split; try done.
Qed.

(** C7. For every base rule the nesting strategy inserts every production
    that the domain returns for it as it is, with its category and its x
    and y text, and the templated rule that it inserts for the base rule
    keeps the category and, the alignment spans being intervals into
    [x_str] and [y_str], differs from them only inside the spliced spans:
    each side is the base text with the spans' texts replaced by their
    placeholders and all other text kept in order. *)
Theorem nesting_productions_and_template (start g' : Grammar)
    (cat x_str y_str : string) :
  induce_nesting_grammar start = Return g' ->
  (cat, x_str, y_str) ∈ rule_list start ->
  let alignments := (get_nesting_alignments x_str y_str).1 in
  let productions := (get_nesting_alignments x_str y_str).2 in
  Forall (fun al : alignment =>
            span_within x_str al.1.2 /\ span_within y_str al.2) alignments ->
  (forall cat_p x_p y_p,
      (cat_p, x_p, y_p) ∈ productions -> (cat_p, x_p, y_p) ∈ rule_list g')
  /\ exists x_new y_new x_asc y_asc,
       (cat, x_new, y_new) ∈ rule_list g'
       /\ x_asc ≡ₚ x_swaps alignments
       /\ left_to_right 0 x_asc (len x_str)
       /\ x_new = weave x_str 0 x_asc (len x_str)
       /\ y_asc ≡ₚ y_swaps alignments
       /\ left_to_right 0 y_asc (len y_str)
       /\ y_new = weave y_str 0 y_asc (len y_str).
Proof.
  intros Hg Hin als prods Hw.
  destruct (templated_in_nesting_grammar _ _ _ Hg Hin)
    as (t & (x_new & y_new & Hsx & Hsy & ->) & Ht & Hp).
  simpl in Hsx, Hsy. fold als in Hsx, Hsy.
  split; [intros cat_p x_p y_p; apply Hp |].
  apply splice_returns_weave in Hsx as (x_asc & Hxp & Hxl & ->).
  2:{ rewrite Forall_forall. intros sw Hsw.
      apply elem_of_x_swaps in Hsw as (c & xs & ys & Hal & ->).
      rewrite Forall_forall in Hw. by destruct (Hw _ Hal). }
  apply splice_returns_weave in Hsy as (y_asc & Hyp & Hyl & ->).
  2:{ unfold y_swaps. rewrite Forall_fmap. eapply Forall_impl; [exact Hw |].
      by intros [[c xs] ys] [_ ?]. }
  eexists _, _, x_asc, y_asc. split; [exact Ht | done].
Qed.

End StrategyFacts.

(** ** Claims about the concatenation strategy *)

Lemma concat_snoc sep l x :
  l <> [] -> String.concat sep (l ++ [x]) = String.concat sep l +:+ sep +:+ x.
Proof.
  induction l as [|a l IH]; [done |]. intros _.
  destruct l as [|b l].
  - reflexivity.
  - change (String.concat sep ((a :: b :: l) ++ [x]))
      with (a +:+ sep +:+ String.concat sep ((b :: l) ++ [x])).
    rewrite IH by done.
    change (String.concat sep (a :: b :: l))
      with (a +:+ sep +:+ String.concat sep (b :: l)).
    by rewrite !str_app_assoc.
Qed.

Section ConcatFacts.
Context `{R : GrammarRoot} `{D : Domain} `{Ord : SetOrder}.

Lemma root_str_sentence_tokens k : root_str k = sentence_tokens (Z.to_nat k).
Proof.
  unfold root_str, range, join. generalize (Z.to_nat k) as n. clear k.
  induction n as [|n IH]; [done |].
  destruct n as [|n]; [done |].
  rewrite seq_S, !map_app.
  change (map (fun i : Z => "$sentence_" +:+ fmt_d i) (map Z.of_nat [(0 + S n)%nat]))
    with ["$sentence_" +:+ fmt_d (Z.of_nat (S n))].
  rewrite concat_snoc by (cbn [seq map]; discriminate).
  rewrite IH. reflexivity.
Qed.

Lemma concat_copy_rule_list l g :
  rule_list
    (foldl (fun g '(cat, x_str, y_str) =>
              if bool_decide (cat = ROOT)
              then add_rule g "$sentence" x_str y_str
              else add_rule g cat x_str y_str) g l)
  = rule_list g ++ map as_sentence l.
Proof.
  revert g; induction l as [|[[cat x] y] l IH]; intros g; simpl.
  - by rewrite List.app_nil_r.
  - rewrite IH. destruct (bool_decide (cat = ROOT)); simpl;
      by rewrite <- List.app_assoc.
Qed.

Lemma as_sentence_not_ROOT r : ROOT <> "$sentence" -> (as_sentence r).1.1 <> ROOT.
Proof.
  intros Hne. destruct r as [[cat x] y]. simpl.
  destruct (bool_decide_reflect (cat = ROOT)); [done | done].
Qed.

Lemma no_ROOT_among_copies l :
  ROOT <> "$sentence" ->
  filter (fun r : rule => r.1.1 = ROOT) (map as_sentence l) = [].
Proof.
  intros Hne. induction l as [|r l IH]; [done |]. simpl.
  rewrite filter_cons_False; [done |]. by apply as_sentence_not_ROOT.
Qed.

(** C8. The concatenation strategy with parameter [k] copies every base
    rule in order, a rule of the category [ROOT] under the category
    ['$sentence'] and any other rule under its own category, the x and y
    text unchanged in both cases, and it adds one rule after them: the
    [ROOT] rule whose x and y pattern are the same string, the tokens
    ['$sentence_0'] to ['$sentence_{k-1}'] with the separator [' [SEP] ']
    between them.  ['$sentence'] not being the root category, this is the
    only [ROOT] rule of the new grammar. *)
Theorem induce_concat_grammar_spec (start_grammar : Grammar) (k : Z) :
  rule_list (induce_concat_grammar start_grammar k)
  = map as_sentence (rule_list start_grammar)
    ++ [(ROOT, sentence_tokens (Z.to_nat k), sentence_tokens (Z.to_nat k))]
  /\ (ROOT <> "$sentence" ->
      filter (fun r : rule => r.1.1 = ROOT)
             (rule_list (induce_concat_grammar start_grammar k))
      = [(ROOT, sentence_tokens (Z.to_nat k), sentence_tokens (Z.to_nat k))]).
Proof.
  assert (rule_list (induce_concat_grammar start_grammar k)
          = map as_sentence (rule_list start_grammar)
            ++ [(ROOT, sentence_tokens (Z.to_nat k), sentence_tokens (Z.to_nat k))])
    as Hl.
  { unfold induce_concat_grammar. rewrite rule_list_add_rule, concat_copy_rule_list.
    by rewrite root_str_sentence_tokens. }
  split; [exact Hl |]. intros Hne. rewrite Hl, filter_app.
  rewrite no_ROOT_among_copies by done.
  by rewrite filter_cons_True.
Qed.

End ConcatFacts.

(** ** Claims about [Augmenter] *)

Lemma foldlM_app {A B} (f : B -> A -> result B) b l k :
  foldlM f b (l ++ k) = foldlM f b l ≫= fun b' => foldlM f b' k.
Proof.
  revert b; induction l as [|a l IH]; intros b; simpl; [done |].
  destruct (f b a) as [b' | e]; simpl; [apply IH | done].
Qed.

Section AugmenterFacts.
Context `{R : GrammarRoot} `{D : Domain} `{Ord : SetOrder}.

(** C9, as amended. An identifier that is not ['entity'], not ['nesting']
    and does not start with ['concat'] is skipped without an error: the step
    of [setup_grammar] leaves the current grammar as it is, and the
    identifier can be taken out of the list of identifiers without any
    change of the outcome. *)
Theorem unknown_aug_type_skipped (dataset : list example) (aug_type : string) :
  aug_type <> "entity" -> aug_type <> "nesting" ->
  String.prefix "concat" aug_type = false ->
  (forall grammar, apply_aug_type dataset grammar aug_type = Return grammar)
  /\ (forall before after,
        setup_grammar dataset (before ++ aug_type :: after)
        = setup_grammar dataset (before ++ after)).
Proof.
  intros He Hn Hc.
  assert (forall grammar, apply_aug_type dataset grammar aug_type = Return grammar)
    as Hstep.
  { intros g. unfold apply_aug_type.
    rewrite !bool_decide_eq_false_2 by done. by rewrite Hc. }
  split; [exact Hstep |]. intros before after. unfold setup_grammar.
  rewrite !foldlM_app.
  destruct (foldlM (apply_aug_type dataset) (Grammar_of_dataset dataset) before)
    as [g | e]; simpl; [| done].
  by rewrite Hstep.
Qed.

Context `{Smp : Sampler}.

Lemma sample_loop_spec self num fuel calls aug_data out :
  sample_loop self num fuel calls aug_data = Some out ->
  Z.of_nat (length aug_data) <= Z.max 0 num ->
  Z.of_nat (length out) = Z.max 0 num
  /\ exists n, (n <= fuel)%nat /\ out = aug_data ++ accepted self calls n.
Proof.
  revert calls aug_data; induction fuel as [|fuel IH]; intros calls acc; simpl.
  - destruct (Z.ltb_spec (Z.of_nat (length acc)) num); [done |].
    intros [= <-] Hle. split; [lia |]. exists 0%nat.
    split; [done |]. unfold accepted. simpl. by rewrite List.app_nil_r.
  - destruct (Z.ltb_spec (Z.of_nat (length acc)) num) as [Hlt | Hge].
    + destruct (grammar_sample (grammar self) calls) as [x y] eqn:Hdraw.
      destruct (bool_decide_reflect ((x, y) ∈ dataset_set self)) as [Hin | Hnin].
      * intros Hs Hle. apply IH in Hs as (Hlen & n & Hn & ->); [| done].
        split; [done |]. exists (S n). split; [lia |].
        unfold accepted. simpl. rewrite Hdraw.
        rewrite filter_cons_False by (intros Hn'; by apply Hn'). done.
      * intros Hs Hle. apply IH in Hs as (Hlen & n & Hn & ->).
        2:{ rewrite length_app. simpl. lia. }
        split; [done |]. exists (S n). split; [lia |].
        unfold accepted. simpl. rewrite Hdraw.
        rewrite filter_cons_True by done. by rewrite <- List.app_assoc.
    + intros [= <-] Hle. split; [lia |]. exists 0%nat.
      split; [lia |]. unfold accepted. simpl. by rewrite List.app_nil_r.
Qed.

Lemma Augmenter_init_Return data aug_types self :
  Augmenter_init data aug_types = Return self ->
  dataset self = data
  /\ setup_grammar data aug_types = Return (grammar self)
  /\ forall p, p ∈ dataset_set self <-> p ∈ data.
Proof.
  unfold Augmenter_init. intros Hb. apply bind_Return in Hb as (g & Hg & Hb).
  injection Hb as <-. simpl. split; [done |]. split; [done |].
  intros p. apply elem_of_list_to_set.
Qed.

(** C1. Whenever [sample(n)] returns, it returns exactly [n] pairs (none
    for a negative [n]), and no returned pair is a pair of the original
    dataset: the result is made of the draws from the grammar, in their
    order, with every draw that equals a pair of the dataset left out,
    after which the next draw was made. *)
Theorem sample_spec (data : list example) (aug_types : list string)
    (self : Augmenter) (num : Z) (fuel : nat) (out : list example) :
  Augmenter_init data aug_types = Return self ->
  sample self num fuel = Some out ->
  Z.of_nat (length out) = Z.max 0 num
  /\ Forall (fun p => p ∉ data) out
  /\ exists draws,
       (draws <= fuel)%nat
       /\ out = filter (fun p => p ∉ data)
                       (map (grammar_sample (grammar self)) (seq 0 draws)).
Proof.
  intros Hinit Hs. apply Augmenter_init_Return in Hinit as (_ & _ & Hset).
  unfold sample in Hs. apply sample_loop_spec in Hs as (Hlen & n & Hn & ->).
  2:{ simpl. lia. }
  assert (accepted self 0 n
          = filter (fun p => p ∉ data)
                   (map (grammar_sample (grammar self)) (seq 0 n))) as Hacc.
  { unfold accepted. apply list_filter_iff. intros p. by rewrite Hset. }
  simpl in Hlen |- *. rewrite Hacc in Hlen |- *.
  split; [done |]. split; [| by exists n].
  apply Forall_forall. intros p Hp.
  by apply list_elem_of_filter in Hp as [? _].
Qed.

(** The loop ends as soon as the draws hold [num] pairs that are not in
    the dataset. *)
Lemma sample_loop_returns self num fuel calls aug_data :
  num <= Z.of_nat (length aug_data + length (accepted self calls fuel)) ->
  is_Some (sample_loop self num fuel calls aug_data).
Proof.
  revert calls aug_data; induction fuel as [|fuel IH]; intros calls acc; simpl.
  - unfold accepted. simpl. intros Hle.
    destruct (Z.ltb_spec (Z.of_nat (length acc)) num); [lia | done].
  - intros Hle.
    destruct (Z.ltb_spec (Z.of_nat (length acc)) num) as [Hlt | Hge]; [| done].
    unfold accepted in Hle. simpl in Hle.
    destruct (grammar_sample (grammar self) calls) as [x y] eqn:Hdraw.
    destruct (bool_decide_reflect ((x, y) ∈ dataset_set self)) as [Hin | Hnin].
    + apply IH. rewrite filter_cons_False in Hle by (intros Hn'; by apply Hn').
      exact Hle.
    + apply IH. rewrite filter_cons_True in Hle by done.
      rewrite length_app. simpl in *. unfold accepted. lia.
Qed.

Lemma sample_returns self num fuel :
  num <= Z.of_nat (length (accepted self 0 fuel)) ->
  is_Some (sample self num fuel).
Proof. intros Hle. by apply sample_loop_returns. Qed.

End AugmenterFacts.

(** ** The claims on the scenarios *)

Section Scenarios.
#[local] Existing Instance dollar_ROOT.
#[local] Existing Instance last_occurrence_order.

Example geo_entity_run :
  induce_entity_grammar (D := geo_domain) geo_dataset (Grammar_of_dataset geo_dataset)
  = Return geo_entity_grammar.
Proof. reflexivity. Qed.

Example geo_nesting_run :
  induce_nesting_grammar (D := geo_domain) (Grammar_of_dataset geo_dataset)
  = Return geo_nesting_grammar.
Proof. reflexivity. Qed.

Example geo_setup_run :
  rule_list <$> setup_grammar (D := geo_domain) geo_dataset ["entity"; "concat2"]
  = Return [("$state", "texas", "stateid(texas)");
            ("$state", "ohio", "stateid(ohio)");
            ("$sentence", "what states border $state_19 ?",
             "answer(state(next_to($state_19)))");
            ("$sentence", "what is the highest mountain in $state_32 ?",
             "answer(highest(mountain(loc($state_32))))");
            ("$ROOT", "$sentence_0 [SEP] $sentence_1",
             "$sentence_0 [SEP] $sentence_1")].
Proof. reflexivity. Qed.

Lemma sample_spec_witness :
  exists self out,
    Augmenter_init (D := geo_domain) geo_dataset ["entity"] = Return self
    /\ sample (Smp := round_robin
                 [("what states border texas ?",
                   "answer(state(next_to(stateid(texas))))");
                  ("what states border ohio ?",
                   "answer(state(next_to(stateid(ohio))))");
                  ("what is the highest mountain in texas ?",
                   "answer(highest(mountain(loc(stateid(texas)))))")])
              self 3 5 = Some out
    /\ Z.of_nat (length out) = Z.max 0 3
    /\ Forall (fun p => p ∉ geo_dataset) out.
Proof.
  eexists _, _.
  assert (Augmenter_init (D := geo_domain) geo_dataset ["entity"]
          = Return {| dataset := geo_dataset;
                      dataset_set := list_to_set geo_dataset;
                      grammar := geo_entity_grammar |}) as Hinit by reflexivity.
  split; [exact Hinit |].
  assert (sample (Smp := round_robin
                    [("what states border texas ?",
                      "answer(state(next_to(stateid(texas))))");
                     ("what states border ohio ?",
                      "answer(state(next_to(stateid(ohio))))");
                     ("what is the highest mountain in texas ?",
                      "answer(highest(mountain(loc(stateid(texas)))))")])
                 {| dataset := geo_dataset;
                    dataset_set := list_to_set geo_dataset;
                    grammar := geo_entity_grammar |} 3 5
          = Some [("what states border ohio ?",
                   "answer(state(next_to(stateid(ohio))))");
                  ("what is the highest mountain in texas ?",
                   "answer(highest(mountain(loc(stateid(texas)))))");
                  ("what states border ohio ?",
                   "answer(state(next_to(stateid(ohio))))")]) as Hs
    by (vm_compute; reflexivity).
  split; [exact Hs |].
  destruct (sample_spec _ _ _ _ _ _ Hinit Hs) as (Hlen & Hall & _).
  split; [exact Hlen | exact Hall].
Defined.

Lemma template_same_token_set_witness :
  exists x_new y_new,
    rule_list {| rule_list := [("$ROOT", "$state_0 twice", "f($state_0,$state_0)")] |}
    = rule_list Grammar_new ++ [("$ROOT", x_new, y_new)]
    /\ splice "texas twice" (x_swaps one_to_many) = Return x_new
    /\ splice "f(texas,texas)" (y_swaps one_to_many) = Return y_new
    /\ (forall t, t ∈ x_tokens one_to_many <-> t ∈ y_tokens one_to_many)
    /\ (NoDup (x_anchors one_to_many) -> x_tokens one_to_many ≡ₚ y_tokens one_to_many).
Proof.
  apply (template_same_token_set one_to_many Grammar_new
           ("$ROOT", "texas twice", "f(texas,texas)")).
  reflexivity.
Defined.

(** C4, as stated, fails.  The x-span [(0, 5)] of "texas twice" is aligned to
    the two y-spans [(2, 7)] and [(8, 13)] of "f(texas,texas)": the x side of
    the templated rule holds the token [$state_0] once, the y side twice. *)
Lemma template_same_multiset_counterexample :
  rule_list <$> setup_grammar (D := one_to_many_domain)
                  [("texas twice", "f(texas,texas)")] ["entity"]
  = Return [("$state", "texas", "texas");
            ("$state", "texas", "texas");
            ("$ROOT", "$state_0 twice", "f($state_0,$state_0)")]
  /\ occurrences "$state_0" "$state_0 twice" = 1%nat
  /\ occurrences "$state_0" "f($state_0,$state_0)" = 2%nat
  /\ x_tokens one_to_many = ["$state_0"]
  /\ y_tokens one_to_many = ["$state_0"; "$state_0"]
  /\ ~ claim_same_multiset one_to_many.
Proof.
  split; [reflexivity |]. split; [reflexivity |]. split; [reflexivity |].
  split; [reflexivity |]. split; [reflexivity |].
  unfold claim_same_multiset. intros Hp.
  apply Permutation_length in Hp. vm_compute in Hp. discriminate.
Qed.

Lemma entity_template_placeholders_witness :
  let alignments :=
    get_entity_alignments (Domain := geo_domain) "what states border texas ?"
      "answer(state(next_to(stateid(texas))))" in
  NoDup (x_swaps alignments)
  /\ (forall sw, sw ∈ x_swaps alignments <->
        exists c xs ys, (c, xs, ys) ∈ alignments
                        /\ sw = (xs, c +:+ "_" +:+ fmt_d xs.1))
  /\ y_swaps alignments
     = map (fun al : alignment => (al.2, al.1.1 +:+ "_" +:+ fmt_d al.1.2.1))
           alignments
  /\ (exists x_new y_new,
        splice "what states border texas ?" (x_swaps alignments) = Return x_new
        /\ splice "answer(state(next_to(stateid(texas))))" (y_swaps alignments)
           = Return y_new
        /\ ("$ROOT", x_new, y_new) ∈ rule_list geo_entity_grammar).
Proof.
  apply (entity_template_placeholders (D := geo_domain) geo_dataset
           (Grammar_of_dataset geo_dataset) geo_entity_grammar).
  - reflexivity.
  - vm_compute. apply list_elem_of_here.
Defined.

(** C5, as stated, fails.  The two alignments share the inner category and
    the start offset of their x-spans, [(0, 0)] and [(0, 1)], hence the key
    [($c, 0)], and the x side is given two placeholders, one per span. *)
Lemma one_placeholder_per_key_counterexample :
  x_keys shared_start = [("$c", 0)]
  /\ x_swaps shared_start = [((0, 0), "$c_0"); ((0, 1), "$c_0")]
  /\ rule_list <$> setup_grammar (D := shared_start_domain) [("a", "a")] ["entity"]
     = Return [("$c", "", ""); ("$c", "a", "a"); ("$ROOT", "$c_0$c_0", "$c_0$c_0")]
  /\ ~ claim_one_placeholder_per_key shared_start.
Proof.
  split; [reflexivity |]. split; [reflexivity |]. split; [reflexivity |].
  unfold claim_one_placeholder_per_key. vm_compute. discriminate.
Qed.

Lemma entity_round_trip_witness :
  let token := placeholder "$state" (19, 24) in
  exists x_new y_new,
    ("$ROOT", x_new, y_new) ∈ rule_list geo_entity_grammar
    /\ x_new = slice_to "what states border texas ?" 19 +:+ token
               +:+ slice_from "what states border texas ?" 24
    /\ y_new = slice_to "answer(state(next_to(stateid(texas))))" 21 +:+ token
               +:+ slice_from "answer(state(next_to(stateid(texas))))" 35
    /\ slice x_new 19 (19 + len token) = token
    /\ slice y_new 21 (21 + len token) = token
    /\ splice x_new [((19, 19 + len token),
                      slice "what states border texas ?" 19 24)]
       = Return "what states border texas ?"
    /\ splice y_new [((21, 21 + len token),
                      slice "answer(state(next_to(stateid(texas))))" 21 35)]
       = Return "answer(state(next_to(stateid(texas))))".
Proof.
  apply (entity_round_trip (D := geo_domain) geo_dataset
           (Grammar_of_dataset geo_dataset) geo_entity_grammar
           "$ROOT" "what states border texas ?"
           "answer(state(next_to(stateid(texas))))" "$state" (19, 24) (21, 35)).
  - reflexivity.
  - vm_compute. apply list_elem_of_here.
  - reflexivity.
  - vm_compute. repeat split; discriminate.
  - vm_compute. repeat split; discriminate.
Defined.

Lemma nesting_productions_and_template_witness :
  (forall cat_p x_p y_p,
      (cat_p, x_p, y_p)
      ∈ (get_nesting_alignments (Domain := geo_domain)
           "what is the highest mountain in ohio ?"
           "answer(highest(mountain(loc(stateid(ohio)))))").2 ->
      (cat_p, x_p, y_p) ∈ rule_list geo_nesting_grammar)
  /\ exists x_new y_new x_asc y_asc,
       ("$ROOT", x_new, y_new) ∈ rule_list geo_nesting_grammar
       /\ x_asc ≡ₚ x_swaps [("$state", (32, 36), (28, 41))]
       /\ left_to_right 0 x_asc (len "what is the highest mountain in ohio ?")
       /\ x_new = weave "what is the highest mountain in ohio ?" 0 x_asc
                        (len "what is the highest mountain in ohio ?")
       /\ y_asc ≡ₚ y_swaps [("$state", (32, 36), (28, 41))]
       /\ left_to_right 0 y_asc (len "answer(highest(mountain(loc(stateid(ohio)))))")
       /\ y_new = weave "answer(highest(mountain(loc(stateid(ohio)))))" 0 y_asc
                        (len "answer(highest(mountain(loc(stateid(ohio)))))").
Proof.
  apply (nesting_productions_and_template (D := geo_domain)
           (Grammar_of_dataset geo_dataset) geo_nesting_grammar
           "$ROOT" "what is the highest mountain in ohio ?"
           "answer(highest(mountain(loc(stateid(ohio)))))").
  - reflexivity.
  - vm_compute. apply list_elem_of_further, list_elem_of_here.
  - vm_compute. repeat constructor; discriminate.
Defined.

Lemma induce_concat_grammar_spec_witness :
  filter (fun r : rule => r.1.1 = ROOT)
         (rule_list (induce_concat_grammar (Grammar_of_dataset geo_dataset) 2))
  = [("$ROOT", "$sentence_0 [SEP] $sentence_1", "$sentence_0 [SEP] $sentence_1")].
Proof.
  apply (induce_concat_grammar_spec (Grammar_of_dataset geo_dataset) 2).
  vm_compute. discriminate.
Defined.

Lemma unknown_aug_type_skipped_witness :
  (forall grammar,
      apply_aug_type (D := geo_domain) geo_dataset grammar "entities" = Return grammar)
  /\ (forall before after,
        setup_grammar (D := geo_domain) geo_dataset (before ++ "entities" :: after)
        = setup_grammar (D := geo_domain) geo_dataset (before ++ after)).
Proof.
  apply (unknown_aug_type_skipped (D := geo_domain) geo_dataset "entities").
  - discriminate.
  - discriminate.
  - reflexivity.
Defined.

(** C9, as stated, fails.  The identifier [concatx] is not ['entity'], not
  ['nesting'] and not a concatenation identifier, and it is not skipped: it
  starts with [concat], so that line 47 calls [int('x')], which raises. *)
Lemma unknown_skipped_counterexample :
  supported_concat_id "concatx" = false
  /\ apply_aug_type (D := geo_domain) geo_dataset (Grammar_of_dataset geo_dataset)
       "concatx" = Raise (ValueError_int_literal "x")
  /\ setup_grammar (D := geo_domain) geo_dataset ["entity"; "concat"]
     = Raise (ValueError_int_literal "")
  /\ ~ claim_unknown_skipped (D := geo_domain) "concatx".
Proof.
  split; [reflexivity |]. split; [reflexivity |]. split; [reflexivity |].
  unfold claim_unknown_skipped. intros Hclaim.
  specialize (Hclaim ltac:(discriminate) ltac:(discriminate) eq_refl
                geo_dataset (Grammar_of_dataset geo_dataset)).
  discriminate Hclaim.
Qed.

End Scenarios.

(** * Further properties *)

(** ** [splice]: when it raises, and the order of the swaps *)

Lemma pairwise_impl2 {A} (P Q T : A -> A -> Prop) l :
  (forall a b, P a b -> Q a b -> T a b) ->
  pairwise P l -> pairwise Q l -> pairwise T l.
Proof.
  intros Himp. induction l as [|x l IH]; simpl; [done |].
  intros [HP HPl] [HQ HQl]. split; [| by apply IH].
  rewrite Forall_forall in *. intros y Hy. apply Himp; auto.
Qed.

Lemma pairwise_distinct_NoDup {A B} (f : A -> B) l :
  pairwise (fun a b => f a <> f b) l -> NoDup (f <$> l).
Proof.
  induction l as [|x l IH]; simpl; [constructor |].
  intros [Hx Hl]. constructor; [| by apply IH].
  rewrite list_elem_of_fmap. intros (y & Heq & Hy).
  rewrite Forall_forall in Hx. by apply (Hx y Hy).
Qed.

Lemma span_ge_antisym p q : span_ge p q -> span_ge q p -> p = q.
Proof.
  destruct p as [a b], q as [c d]. unfold span_ge. simpl.
  intros H1 H2. f_equal; lia.
Qed.

Lemma NoDup_fmap_elem_inj {A B} (f : A -> B) l a b :
  NoDup (f <$> l) -> a ∈ l -> b ∈ l -> f a = f b -> a = b.
Proof.
  induction l as [|x l IH]; intros Hnd Ha Hb Heq.
  - by apply elem_of_nil in Ha.
  - rewrite fmap_cons in Hnd. apply NoDup_cons in Hnd as [Hx Hnd].
    apply elem_of_cons in Ha as [-> | Ha]; apply elem_of_cons in Hb as [-> | Hb].
    + done.
    + destruct Hx. rewrite Heq. apply list_elem_of_fmap. by exists b.
    + destruct Hx. rewrite <- Heq. apply list_elem_of_fmap. by exists a.
    + by apply IH.
Qed.

(** Two sorted arrangements of the same swaps are the same list when no two
    swaps have the same span. *)
Lemma sorted_perm_unique l k :
  StronglySorted swap_ge l -> StronglySorted swap_ge k -> l ≡ₚ k ->
  NoDup (l.*1) -> l = k.
Proof.
  intros Hl. revert k. induction Hl as [|x l Hl IH Hx]; intros k Hk Hp Hnd.
  - by apply Permutation_nil in Hp.
  - destruct Hk as [|y k Hk Hy].
    { symmetry in Hp. by apply Permutation_nil in Hp. }
    assert (x = y) as ->.
    { assert (x ∈ y :: k) as Hxin by (rewrite <- Hp; apply list_elem_of_here).
      assert (y ∈ x :: l) as Hyin by (rewrite Hp; apply list_elem_of_here).
      apply (NoDup_fmap_elem_inj fst (x :: l)); [done | apply list_elem_of_here | done |].
      apply elem_of_cons in Hxin as [-> | Hxin]; [done |].
      apply elem_of_cons in Hyin as [-> | Hyin]; [done |].
      rewrite Forall_forall in Hx, Hy.
      apply span_ge_antisym; [by apply Hx | by apply Hy]. }
    f_equal. apply IH; [done | by apply Permutation_cons_inv in Hp |].
    rewrite fmap_cons in Hnd. by apply NoDup_cons in Hnd as [_ ?].
Qed.

Lemma sort_desc_perm_eq l k :
  l ≡ₚ k -> NoDup (l.*1) -> sort_desc l = sort_desc k.
Proof.
  intros Hp Hnd. apply sorted_perm_unique.
  - apply sort_desc_sorted.
  - apply sort_desc_sorted.
  - by rewrite !sort_desc_perm.
  - by rewrite sort_desc_perm.
Qed.

Lemma returns_NoDup_spans s l :
  returns (splice s l) -> pairwise shared_span_nonempty l -> NoDup (l.*1).
Proof.
  intros Hr Hs. apply splice_returns_disjoint in Hr.
  apply pairwise_distinct_NoDup.
  eapply pairwise_impl2; [| exact Hr | exact Hs].
  intros a b Hd Hne Heq. specialize (Hne Heq).
  unfold disjoint in Hd. rewrite <- Heq in Hd. lia.
Qed.

Lemma splice_returns_iff s swaps :
  Forall (fun sw : swap => span_ordered sw.1) swaps ->
  returns (splice s swaps) <->
  pairwise_disjoint swaps /\ Forall (fun sw : swap => sw.1.2 <= len s) swaps.
Proof.
  intros Ho. split.
  - intros Hr. split; [by apply (splice_returns_disjoint s) |].
    apply splice_returns_chain in Hr.
    rewrite <- (sort_desc_perm swaps).
    apply chain_ordered_ends_le; [done |]. by rewrite sort_desc_perm.
  - intros [Hd Hb]. unfold splice. apply splice_loop_chain.
    apply disjoint_sorted_chain.
    + apply sort_desc_sorted.
    + eapply pairwise_disjoint_perm; [symmetry; apply sort_desc_perm | done].
    + by rewrite sort_desc_perm.
    + by rewrite sort_desc_perm.
Qed.

Lemma splice_not_returns s swaps :
  ~ returns (splice s swaps) -> splice s swaps = Raise NonDisjointSpans.
Proof.
  intros Hn. by destruct (splice_cases s swaps) as [[_ Hr] | [_ Hr]].
Qed.

Lemma splice_Raise s swaps e : splice s swaps = Raise e -> e = NonDisjointSpans.
Proof.
  intros He. destruct (splice_cases s swaps) as [[_ [out Hr]] | [_ Hr]]; congruence.
Qed.

(** X1. With spans whose start is at or before their end, [splice] returns
    exactly when the spans are pairwise disjoint and every span ends within
    the string; in every other case it raises the error of line 62, and it
    raises no other error. *)
Theorem splice_returns_exactly (s : string) (swaps : list swap) :
  Forall (fun sw : swap => span_ordered sw.1) swaps ->
  (returns (splice s swaps) <->
   pairwise_disjoint swaps /\ Forall (fun sw : swap => sw.1.2 <= len s) swaps)
  /\ (~ (pairwise_disjoint swaps /\ Forall (fun sw : swap => sw.1.2 <= len s) swaps) ->
      splice s swaps = Raise (ValueError "Non-disjoint spans detected")).
Proof.
  intros Ho. pose proof (splice_returns_iff s swaps Ho) as Hiff.
  split; [exact Hiff |].
  intros Hn. apply splice_not_returns. intros Hr. apply Hn. by apply Hiff.
Qed.

Lemma splice_returns_exactly_witness :
  (returns (splice "abcdef" [((-2, 1), "X"); ((1, 1), "Y"); ((4, 6), "Z")]) <->
   pairwise_disjoint [((-2, 1), "X"); ((1, 1), "Y"); ((4, 6), "Z")]
   /\ Forall (fun sw : swap => sw.1.2 <= len "abcdef")
             [((-2, 1), "X"); ((1, 1), "Y"); ((4, 6), "Z")])
  /\ (~ (pairwise_disjoint [((-2, 1), "X"); ((1, 1), "Y"); ((4, 6), "Z")]
         /\ Forall (fun sw : swap => sw.1.2 <= len "abcdef")
                   [((-2, 1), "X"); ((1, 1), "Y"); ((4, 6), "Z")]) ->
      splice "abcdef" [((-2, 1), "X"); ((1, 1), "Y"); ((4, 6), "Z")]
      = Raise (ValueError "Non-disjoint spans detected")).
Proof.
  apply (splice_returns_exactly "abcdef" [((-2, 1), "X"); ((1, 1), "Y"); ((4, 6), "Z")]).
  repeat constructor; vm_compute; congruence.
Defined.

Lemma splice_perm_eq s l k :
  l ≡ₚ k -> pairwise shared_span_nonempty l -> splice s l = splice s k.
Proof.
  intros Hp Hl.
  assert (pairwise shared_span_nonempty k) as Hk.
  { eapply pairwise_perm; [| exact Hp | exact Hl].
    intros a b Hab Heq. rewrite Heq. apply Hab. by symmetry. }
  destruct (splice_cases s l) as [[_ Hrl] | [_ Hrl]].
  - unfold splice. rewrite (sort_desc_perm_eq l k); [done | done |].
    by apply (returns_NoDup_spans s).
  - destruct (splice_cases s k) as [[_ Hrk] | [_ Hrk]]; [| congruence].
    pose proof (returns_NoDup_spans s k Hrk Hk) as Hnd.
    unfold splice. rewrite (sort_desc_perm_eq k l); [done | by symmetry | done].
Qed.

Lemma sorted_spans_unique (ps qs : list span) :
  StronglySorted span_ge ps -> StronglySorted span_ge qs -> ps ≡ₚ qs -> ps = qs.
Proof.
  intros Hp. revert qs. induction Hp as [|p ps Hp IH Hx]; intros qs Hq Hperm.
  - by apply Permutation_nil in Hperm.
  - destruct Hq as [|q qs Hq Hy].
    { symmetry in Hperm. by apply Permutation_nil in Hperm. }
    assert (p = q) as ->.
    { assert (p ∈ q :: qs) as Hpin by (rewrite <- Hperm; apply list_elem_of_here).
      assert (q ∈ p :: ps) as Hqin by (rewrite Hperm; apply list_elem_of_here).
      apply elem_of_cons in Hpin as [-> | Hpin]; [done |].
      apply elem_of_cons in Hqin as [-> | Hqin]; [done |].
      rewrite Forall_forall in Hx, Hy.
      apply span_ge_antisym; [by apply Hx | by apply Hy]. }
    f_equal. apply IH; [done |]. by apply Permutation_cons_inv in Hperm.
Qed.

Lemma sorted_spans l : StronglySorted swap_ge l -> StronglySorted span_ge (l.*1).
Proof.
  induction 1 as [|x l Hl IH Hx]; simpl; constructor; [done |].
  by rewrite Forall_fmap.
Qed.

Lemma chain_spans cur_left l k : l.*1 = k.*1 -> chain cur_left l -> chain cur_left k.
Proof.
  revert cur_left k; induction l as [|[sp rep] l IH]; intros cur [|[sp' rep'] k]; simpl;
    try done.
  intros [= <- Heq] [Hle Hc]. split; [done |]. by apply IH.
Qed.

Lemma splice_returns_perm s l k :
  l ≡ₚ k -> returns (splice s l) -> returns (splice s k).
Proof.
  intros Hp Hr. apply splice_returns_chain in Hr.
  unfold splice. apply splice_loop_chain.
  eapply chain_spans; [| exact Hr].
  apply sorted_spans_unique.
  - apply sorted_spans, sort_desc_sorted.
  - apply sorted_spans, sort_desc_sorted.
  - apply fmap_Permutation. by rewrite !sort_desc_perm.
Qed.

(** X2. The order in which the swaps are handed to [splice] never matters
    for whether it raises, and it does not matter for the result as long as
    two swaps that have one and the same span have a span that is not empty
    (on which [splice] raises): among swaps of the same empty span the order
    of the list decides the order of the inserted texts. *)
Theorem splice_order_irrelevant (s : string) (l k : list swap) :
  l ≡ₚ k ->
  (returns (splice s l) <-> returns (splice s k))
  /\ (pairwise shared_span_nonempty l -> splice s l = splice s k).
Proof.
  intros Hp. split.
  - split; apply splice_returns_perm; [done | by symmetry].
  - by apply splice_perm_eq.
Qed.

Lemma splice_order_irrelevant_witness :
  (returns (splice "ab" [((1, 1), "X"); ((1, 1), "Y"); ((0, 1), "Z")])
   <-> returns (splice "ab" [((1, 1), "Y"); ((0, 1), "Z"); ((1, 1), "X")]))
  /\ (pairwise shared_span_nonempty [((1, 1), "X"); ((1, 1), "Y"); ((0, 1), "Z")] ->
      splice "ab" [((1, 1), "X"); ((1, 1), "Y"); ((0, 1), "Z")]
      = splice "ab" [((1, 1), "Y"); ((0, 1), "Z"); ((1, 1), "X")]).
Proof.
  apply (splice_order_irrelevant "ab").
  etrans; [apply perm_swap | apply perm_skip, perm_swap].
Defined.

(** Among swaps of one empty span the order of the list shows in the result. *)
Example splice_order_of_insertions :
  splice "ab" [((1, 1), "X"); ((1, 1), "Y")] = Return "aYXb"
  /\ splice "ab" [((1, 1), "Y"); ((1, 1), "X")] = Return "aXYb".
Proof. split; reflexivity. Qed.

(** ** The strategies: errors, success, the order of sets *)

Lemma foldlM_ext_in {A B} (f f' : B -> A -> result B) l b :
  (forall g a, a ∈ l -> f g a = f' g a) -> foldlM f b l = foldlM f' b l.
Proof.
  revert b; induction l as [|a l IH]; intros b Hext; simpl; [done |].
  rewrite (Hext b a) by apply list_elem_of_here.
  destruct (f' b a) as [b' | e]; simpl; [| done].
  apply IH. intros g a' Ha'. apply Hext. by apply list_elem_of_further.
Qed.

Lemma foldlM_returns_iff {A B} (f : B -> A -> result B) (P : A -> Prop) l b :
  (forall g a, a ∈ l -> returns (f g a) <-> P a) ->
  returns (foldlM f b l) <-> Forall P l.
Proof.
  revert b; induction l as [|a l IH]; intros b Hf; simpl.
  - split; [constructor | by eexists].
  - assert (forall g a', a' ∈ l -> returns (f g a') <-> P a') as Hf'.
    { intros g a' Ha'. apply Hf. by apply list_elem_of_further. }
    rewrite Forall_cons, <- (Hf b a) by apply list_elem_of_here.
    destruct (f b a) as [b' | e]; simpl.
    + rewrite (IH b' Hf'). split; [intros ?; split; [by eexists | done] | tauto].
    + split; [intros [? [=]] | intros [[? [=]] _]].
Qed.

Lemma foldlM_Raise {A B} (f : B -> A -> result B) (Q : A -> exn -> Prop) l b e :
  (forall g a e, f g a = Raise e -> Q a e) ->
  foldlM f b l = Raise e -> exists a, a ∈ l /\ Q a e.
Proof.
  intros Hf. revert b; induction l as [|a l IH]; intros b; simpl; [done |].
  destruct (f b a) as [b' | e'] eqn:Hfa; simpl.
  - intros Hr. destruct (IH _ Hr) as (a' & Ha' & HQ).
    exists a'. split; [by apply list_elem_of_further | done].
  - intros [= ->]. exists a. split; [apply list_elem_of_here | by eapply Hf].
Qed.

Lemma pairwise_Forall {A} (P : A -> Prop) (Rel : A -> A -> Prop) l :
  (forall a b, P a -> Rel a b) -> Forall P l -> pairwise Rel l.
Proof.
  intros HPR. induction 1 as [|x l Hx Hl IH]; simpl; [done |].
  split; [| done]. apply Forall_forall. intros y _. by apply HPR.
Qed.

Section MoreStrategyFacts.
Context `{R : GrammarRoot} `{D : Domain}.

Lemma x_swaps_nil `{Ord : SetOrder} : x_swaps [] = [].
Proof.
  apply elem_of_nil_inv. intros sw Hsw.
  apply elem_of_x_swaps in Hsw as (c & xs & ys & Hin & _).
  by apply elem_of_nil in Hin.
Qed.

Lemma add_template_returns_iff `{Ord : SetOrder} alignments g r :
  returns (add_template alignments g r) <->
  returns (splice r.1.2 (x_swaps alignments))
  /\ returns (splice r.2 (y_swaps alignments)).
Proof.
  destruct r as [[cat x] y]. unfold add_template. simpl.
  destruct (splice x (x_swaps alignments)) as [x_new | e]; simpl.
  - destruct (splice y (y_swaps alignments)) as [y_new | e]; simpl.
    + split; [intros _; split; by eexists | intros _; by eexists].
    + split; [intros [? [=]] | intros [_ [? [=]]]].
  - split; [intros [? [=]] | intros [[? [=]] _]].
Qed.

Lemma add_template_Raise `{Ord : SetOrder} alignments g r e :
  add_template alignments g r = Raise e -> e = NonDisjointSpans.
Proof.
  destruct r as [[cat x] y]. unfold add_template.
  destruct (splice x (x_swaps alignments)) as [x_new | e1] eqn:Hx; simpl.
  - destruct (splice y (y_swaps alignments)) as [y_new | e2] eqn:Hy; simpl.
    + discriminate.
    + intros [= <-]. by apply splice_Raise in Hy.
  - intros [= <-]. by apply splice_Raise in Hx.
Qed.

Lemma induce_entity_grammar_Raise `{Ord : SetOrder} dataset start e :
  induce_entity_grammar dataset start = Raise e -> e = NonDisjointSpans.
Proof.
  unfold induce_entity_grammar. intros Hr.
  eapply (foldlM_Raise _ (fun _ e => e = NonDisjointSpans)) in Hr as (_ & _ & ->);
    [done |].
  intros g [[cat x] y] e' He'. by apply add_template_Raise in He'.
Qed.


Lemma add_template_set_order (O1 O2 : SetOrder) alignments g r :
  Forall (fun al : alignment => al.1.2.1 < al.1.2.2) alignments ->
  add_template (Ord := O1) alignments g r = add_template (Ord := O2) alignments g r.
Proof.
  intros Hne. destruct r as [[cat x] y]. unfold add_template.
  rewrite (splice_perm_eq x (x_swaps (Ord := O1) alignments)
             (x_swaps (Ord := O2) alignments)); [done | |].
  - by rewrite !x_swaps_perm.
  - apply (pairwise_Forall (fun sw : swap => sw.1.1 < sw.1.2)).
    + by intros a b Ha _.
    + apply Forall_forall. intros sw Hsw.
      apply elem_of_x_swaps in Hsw as (c & xs & ys & Hin & ->).
      rewrite Forall_forall in Hne. apply (Hne _ Hin).
Qed.

(** X3. The order in which Python goes through the set of the x-side swaps
    (lines 87-89 and 113-115) has no influence on the grammar of the entity
    and of the nesting strategy, nor on their error, when no x-span of an
    alignment is empty. *)
Theorem strategies_set_order_irrelevant (O1 O2 : SetOrder)
    (dataset : list example) (start : Grammar) :
  (forall cat x_str y_str, (cat, x_str, y_str) ∈ rule_list start ->
     Forall (fun al : alignment => al.1.2.1 < al.1.2.2)
            (get_entity_alignments x_str y_str)) ->
  (forall cat x_str y_str, (cat, x_str, y_str) ∈ rule_list start ->
     Forall (fun al : alignment => al.1.2.1 < al.1.2.2)
            (get_nesting_alignments x_str y_str).1) ->
  induce_entity_grammar (Ord := O1) dataset start
  = induce_entity_grammar (Ord := O2) dataset start
  /\ induce_nesting_grammar (Ord := O1) start
     = induce_nesting_grammar (Ord := O2) start.
Proof.
  intros He Hn. split.
  - unfold induce_entity_grammar. apply foldlM_ext_in.
    intros g [[cat x] y] Hin. apply add_template_set_order. by eapply He.
  - unfold induce_nesting_grammar. apply foldlM_ext_in.
    intros g [[cat x] y] Hin. specialize (Hn cat x y Hin).
    destruct (get_nesting_alignments x y) as [als prods].
    by apply add_template_set_order.
Qed.

End MoreStrategyFacts.

Lemma Grammar_eta g : {| rule_list := rule_list g |} = g.
Proof. by destruct g. Qed.

Lemma Grammar_eq g g' : rule_list g = rule_list g' -> g = g'.
Proof. destruct g, g'. simpl. by intros ->. Qed.

(** A loop that adds each element as it is copies the list. *)
Lemma foldlM_copies (f : Grammar -> rule -> result Grammar) l g :
  (forall g r, r ∈ l -> f g r = Return (add_rule g r.1.1 r.1.2 r.2)) ->
  foldlM f g l = Return {| rule_list := rule_list g ++ l |}.
Proof.
  revert g; induction l as [|r l IH]; intros g Hf; simpl.
  - by rewrite List.app_nil_r, Grammar_eta.
  - rewrite Hf by apply list_elem_of_here. simpl.
    rewrite IH by (intros g' r' Hr'; apply Hf; by apply list_elem_of_further).
    destruct r as [[cat x] y]. simpl. by rewrite <- List.app_assoc.
Qed.

Section MoreStrategyClaims.
Context `{R : GrammarRoot} `{D : Domain} `{Ord : SetOrder}.

Lemma add_template_nil g r :
  add_template [] g r = Return (add_rule g r.1.1 r.1.2 r.2).
Proof.
  destruct r as [[cat x] y]. unfold add_template. by rewrite x_swaps_nil.
Qed.

Lemma entity_rules_nil dataset :
  (forall x y, (x, y) ∈ dataset -> get_entity_alignments x y = []) ->
  entity_rules dataset = [].
Proof.
  unfold entity_rules. induction dataset as [|[x y] l IH]; intros Hal; [done |].
  simpl. rewrite (Hal x y) by apply list_elem_of_here. simpl.
  apply IH. intros x' y' Hin. apply Hal. by apply list_elem_of_further.
Qed.

(** X4. A strategy that finds nothing to align leaves the grammar as it is:
    when the domain returns no alignment for the pairs of the dataset and for
    the rules of the grammar, the entity strategy returns the grammar it was
    given, and so does the nesting strategy when the domain returns neither
    alignments nor productions. *)
Theorem strategies_without_alignments (dataset : list example) (start : Grammar) :
  (forall x y, (x, y) ∈ dataset -> get_entity_alignments x y = []) ->
  (forall cat x_str y_str, (cat, x_str, y_str) ∈ rule_list start ->
     get_entity_alignments x_str y_str = []
     /\ get_nesting_alignments x_str y_str = ([], [])) ->
  induce_entity_grammar dataset start = Return start
  /\ induce_nesting_grammar start = Return start.
Proof.
  intros Hds Hrules. split.
  - unfold induce_entity_grammar. rewrite foldlM_copies.
    + f_equal. apply Grammar_eq. simpl.
      by rewrite add_entity_rules_rule_list, entity_rules_nil.
    + intros g [[cat x] y] Hin. destruct (Hrules cat x y Hin) as [-> _].
      apply add_template_nil.
  - unfold induce_nesting_grammar. rewrite foldlM_copies.
    + f_equal. by apply Grammar_eq.
    + intros g [[cat x] y] Hin. destruct (Hrules cat x y Hin) as [_ ->].
      apply add_template_nil.
Qed.


Lemma add_template_returns_exactly alignments g cat x y :
  Forall alignment_ordered alignments ->
  returns (add_template alignments g (cat, x, y))
  <-> alignments_spliceable x y alignments.
Proof.
  intros Ho. rewrite add_template_returns_iff. simpl. unfold alignments_spliceable.
  rewrite !splice_returns_iff; [done | |].
  - unfold y_swaps. rewrite Forall_fmap. eapply Forall_impl; [exact Ho |].
    by intros [[c xs] ys] [_ ?].
  - apply Forall_forall. intros sw Hsw.
    apply elem_of_x_swaps in Hsw as (c & xs & ys & Hin & ->).
    rewrite Forall_forall in Ho. by destruct (Ho _ Hin).
Qed.

(** X6. When the spans of the alignments have their start at or before their
    end, the entity strategy returns a grammar exactly when, for every rule
    of the grammar it is given, the x-side swaps and the y-side swaps of the
    rule's alignments are each pairwise disjoint and end within the rule's
    [x_str] and [y_str]; the same holds of the nesting strategy.  The pairs
    of the dataset and the productions play no part in it. *)
Theorem strategies_return_exactly (dataset : list example) (start : Grammar) :
  (forall cat x_str y_str, (cat, x_str, y_str) ∈ rule_list start ->
     Forall alignment_ordered (get_entity_alignments x_str y_str)
     /\ Forall alignment_ordered (get_nesting_alignments x_str y_str).1) ->
  (returns (induce_entity_grammar dataset start) <->
   forall cat x_str y_str, (cat, x_str, y_str) ∈ rule_list start ->
     alignments_spliceable x_str y_str (get_entity_alignments x_str y_str))
  /\ (returns (induce_nesting_grammar start) <->
      forall cat x_str y_str, (cat, x_str, y_str) ∈ rule_list start ->
        alignments_spliceable x_str y_str (get_nesting_alignments x_str y_str).1).
Proof.
  intros Ho. split.
  - unfold induce_entity_grammar.
    rewrite (foldlM_returns_iff _
               (fun r : rule =>
                  alignments_spliceable r.1.2 r.2 (get_entity_alignments r.1.2 r.2))).
    + rewrite Forall_forall. split.
      * intros Hall cat x y Hin. apply (Hall _ Hin).
      * intros Hall [[cat x] y] Hin. by apply (Hall cat).
    + intros g [[cat x] y] Hin. simpl. apply add_template_returns_exactly.
      by destruct (Ho cat x y Hin).
  - unfold induce_nesting_grammar.
    rewrite (foldlM_returns_iff _
               (fun r : rule =>
                  alignments_spliceable r.1.2 r.2 (get_nesting_alignments r.1.2 r.2).1)).
    + rewrite Forall_forall. split.
      * intros Hall cat x y Hin. apply (Hall _ Hin).
      * intros Hall [[cat x] y] Hin. by apply (Hall cat).
    + intros g [[cat x] y] Hin. simpl. destruct (Ho cat x y Hin) as [_ Hn].
      destruct (get_nesting_alignments x y) as [als prods]. simpl in *.
      by apply add_template_returns_exactly.
Qed.

(** X7. The y side is spliced with one swap per alignment: two alignments of
    a rule whose y-spans overlap make the entity strategy raise the error of
    line 62, whatever their x-spans are; so does an alignment that the
    domain lists twice, although the x side takes it once. *)
Theorem overlapping_y_spans_raise (dataset : list example) (start : Grammar)
    (cat x_str y_str : string) (a b : alignment) (l1 l2 l3 : list alignment) :
  (cat, x_str, y_str) ∈ rule_list start ->
  get_entity_alignments x_str y_str = l1 ++ a :: l2 ++ b :: l3 ->
  overlap a.2 b.2 ->
  induce_entity_grammar dataset start = Raise (ValueError "Non-disjoint spans detected").
Proof.
  intros Hin Hal Hov.
  destruct (induce_entity_grammar dataset start) as [g' | e] eqn:Hg.
  - destruct (templated_in_entity_grammar _ _ _ _ Hg Hin)
      as (t & (x_new & y_new & _ & Hy & _) & _).
    simpl in Hy. rewrite Hal in Hy.
    assert (pairwise_disjoint (y_swaps (l1 ++ a :: l2 ++ b :: l3))) as Hd.
    { apply (splice_returns_disjoint y_str). by eexists. }
    unfold y_swaps in Hd. rewrite map_app in Hd. simpl in Hd.
    rewrite map_app in Hd. simpl in Hd.
    apply pairwise_middle in Hd.
    destruct a as [[ca xa] ya], b as [[cb xb] yb]. simpl in *.
    by apply overlap_not_disjoint in Hov.
  - apply induce_entity_grammar_Raise in Hg. by rewrite Hg.
Qed.

(** X8. The grammar of the entity strategy holds first the literal rules of
    the dataset, one per pair and alignment, in their order, with the texts
    of the two spans, and then one templated rule per rule of the grammar it
    was given, in the same order and under the same categories. *)
Theorem induce_entity_grammar_shape (dataset : list example) (start g' : Grammar) :
  induce_entity_grammar dataset start = Return g' ->
  exists templates,
    rule_list g' = entity_rules dataset ++ templates
    /\ templates.*1.*1 = (rule_list start).*1.*1
    /\ (forall x y c x_span y_span,
          (x, y) ∈ dataset -> (c, x_span, y_span) ∈ get_entity_alignments x y ->
          (c, slice x x_span.1 x_span.2, slice y y_span.1 y_span.2)
          ∈ rule_list g').
Proof.
  intros Hg. apply induce_entity_grammar_rule_list in Hg as (chunks & Hl & HF).
  exists (concat chunks). split; [done |]. split.
  - clear Hl. induction HF as [|r added l chunks Hr HF IH]; [done |].
    destruct Hr as (t & (x_new & y_new & _ & _ & ->) & ->).
    rewrite !fmap_cons, <- IH. reflexivity.
  - intros x y c xs ys Hin Hal. rewrite Hl. apply elem_of_app. left.
    unfold entity_rules.
    apply list_elem_of_In, in_flat_map. exists (x, y).
    split; [by apply list_elem_of_In |].
    apply list_elem_of_In, list_elem_of_fmap. by exists (c, xs, ys).
Qed.

End MoreStrategyClaims.

(** ** The identifiers of the concatenation strategy *)

Lemma rev_app_rev_app s t u :
  String.rev_app (String.rev_app s t) u = String.rev_app t (s +:+ u).
Proof.
  revert t u; induction s as [|c s IH]; intros t u; simpl; [done |].
  rewrite IH. reflexivity.
Qed.

Lemma str_rev_involutive s : String.rev (String.rev s) = s.
Proof. unfold String.rev. rewrite rev_app_rev_app. simpl. apply str_app_nil_r. Qed.












Lemma prefix_app_l p s t : String.prefix p s = true -> String.prefix p (s +:+ t) = true.
Proof.
  revert s; induction p as [|c p IH]; intros s Hp; [by destruct (s +:+ t) |].
  destruct s as [|c' s]; [discriminate Hp |].
  rewrite str_app_cons. simpl in *.
  destruct (ascii_dec c c'); [by apply IH | discriminate Hp].
Qed.

Lemma sentence_tokens_prefix n :
  String.prefix "$sentence_0" (sentence_tokens (S n)) = true.
Proof.
  induction n as [|n IH]; [reflexivity |].
  change (sentence_tokens (S (S n)))
    with (sentence_tokens (S n) +:+ " [SEP] " +:+ "$sentence_" +:+ fmt_d (Z.of_nat (S n))).
  by apply prefix_app_l.
Qed.

Section ConcatIdentifiers.
Context `{R : GrammarRoot} `{D : Domain} `{Ord : SetOrder}.

Lemma induce_concat_grammar_rule_list g k :
  rule_list (induce_concat_grammar g k)
  = map as_sentence (rule_list g)
    ++ [(ROOT, sentence_tokens (Z.to_nat k), sentence_tokens (Z.to_nat k))].
Proof.
  unfold induce_concat_grammar. rewrite rule_list_add_rule, concat_copy_rule_list.
  by rewrite root_str_sentence_tokens.
Qed.


(** X10. Concatenation applied to a grammar that a concatenation produced
    makes the category ['$sentence'] refer to itself: the root rule of the
    first concatenation, [k >= 1] tokens that start with ['$sentence_0'], is
    copied under ['$sentence'], and the only root rule is the one of the
    second concatenation. *)
Theorem concat_twice_is_recursive (start : Grammar) (k k' : Z) :
  ROOT <> "$sentence" -> 1 <= k ->
  let g2 := induce_concat_grammar (induce_concat_grammar start k) k' in
  let pattern := sentence_tokens (Z.to_nat k) in
  ("$sentence", pattern, pattern) ∈ rule_list g2
  /\ String.prefix "$sentence_0" pattern = true
  /\ filter (fun r : rule => r.1.1 = ROOT) (rule_list g2)
     = [(ROOT, sentence_tokens (Z.to_nat k'), sentence_tokens (Z.to_nat k'))].
Proof.
  intros Hne Hk g2 pattern. unfold g2.
  rewrite !induce_concat_grammar_rule_list. split; [| split].
  - apply elem_of_app. left. apply list_elem_of_fmap.
    exists (ROOT, pattern, pattern). split.
    + simpl. by rewrite bool_decide_eq_true_2.
    + apply elem_of_app. right. apply list_elem_of_here.
  - unfold pattern. destruct (Z.to_nat k) as [|n] eqn:Hn; [lia |].
    apply sentence_tokens_prefix.
  - rewrite filter_app, no_ROOT_among_copies by done.
    by rewrite filter_cons_True.
Qed.

End ConcatIdentifiers.

(** ** [sample]: when it returns *)

Section MoreSampleFacts.
Context `{Smp : Sampler}.

Lemma accepted_app self calls n m :
  accepted self calls (n + m) = accepted self calls n ++ accepted self (calls + n) m.
Proof.
  unfold accepted. by rewrite seq_app, map_app, filter_app.
Qed.

Lemma accepted_mono self n fuel :
  (n <= fuel)%nat ->
  (length (accepted self 0 n) <= length (accepted self 0 fuel))%nat.
Proof.
  intros Hle. replace fuel with (n + (fuel - n))%nat by lia.
  rewrite accepted_app, length_app. lia.
Qed.

Lemma sample_Some_enough self num fuel out :
  sample self num fuel = Some out ->
  num <= Z.of_nat (length (accepted self 0 fuel)).
Proof.
  unfold sample. intros Hs.
  apply sample_loop_spec in Hs as (Hlen & n & Hn & ->); [| simpl; lia].
  simpl in Hlen. pose proof (accepted_mono self n fuel Hn). lia.
Qed.

(** X11. [sample(n)] returns within a given number of draws exactly when
    these draws hold at least [n] pairs that are not in the dataset. *)
Theorem sample_returns_exactly (self : Augmenter) (num : Z) (fuel : nat) :
  is_Some (sample self num fuel)
  <-> num <= Z.of_nat (length (accepted self 0 fuel)).
Proof.
  split.
  - intros [out Hs]. by apply sample_Some_enough in Hs.
  - apply sample_returns.
Qed.

(** X12. When the grammar only gives pairs of the dataset, [sample(n)] with
    [n >= 1] never returns, however many draws it makes. *)
Theorem sample_starves (self : Augmenter) (num : Z) :
  (forall i, grammar_sample (grammar self) i ∈ dataset_set self) ->
  1 <= num ->
  forall fuel, sample self num fuel = None.
Proof.
  intros Hall Hnum fuel.
  assert (accepted self 0 fuel = []) as Hnil.
  { unfold accepted. generalize 0%nat. induction fuel as [|fuel IH]; intros c; [done |].
    simpl. rewrite filter_cons_False; [apply IH |]. intros Hn. apply Hn, Hall. }
  destruct (sample self num fuel) as [out |] eqn:Hs; [| done].
  apply sample_Some_enough in Hs.
  rewrite Hnil in Hs. simpl in Hs. lia.
Qed.

Lemma sample_loop_constant self num p fuel calls aug_data :
  (forall i, grammar_sample (grammar self) i = p) -> p ∉ dataset_set self ->
  Z.of_nat (length aug_data) + Z.of_nat fuel = num ->
  sample_loop self num fuel calls aug_data = Some (aug_data ++ replicate fuel p).
Proof.
  intros Hp Hnin. revert calls aug_data.
  induction fuel as [|fuel IH]; intros calls acc Hlen; simpl.
  - destruct (Z.ltb_spec (Z.of_nat (length acc)) num); [lia |].
    by rewrite List.app_nil_r.
  - destruct (Z.ltb_spec (Z.of_nat (length acc)) num); [| lia].
    rewrite Hp. destruct p as [x y].
    rewrite bool_decide_eq_false_2 by done.
    rewrite IH by (rewrite length_app; simpl; lia).
    by rewrite <- List.app_assoc.
Qed.

(** X13. [sample] does not look for duplicates among the pairs it returns:
    when the grammar gives the same pair at every draw, a pair that is not in
    the dataset, [sample(n)] returns [n] copies of it after [n] draws. *)
Theorem sample_keeps_duplicates (self : Augmenter) (p : example) (num : Z) :
  (forall i, grammar_sample (grammar self) i = p) ->
  p ∉ dataset_set self -> 0 <= num ->
  sample self num (Z.to_nat num) = Some (replicate (Z.to_nat num) p).
Proof.
  intros Hp Hnin Hnum. unfold sample.
  rewrite (sample_loop_constant self num p); [done | done | done |].
  simpl. lia.
Qed.

End MoreSampleFacts.

(** ** [main]: the lines of the files *)

Lemma rev_app_app a t : String.rev_app a t = String.rev a +:+ t.
Proof.
  unfold String.rev. revert t; induction a as [|c a IH]; intros t; simpl; [done |].
  rewrite (IH (String c t)), (IH (String c "")).
  by rewrite str_app_assoc.
Qed.

Lemma str_rev_cons c a : String.rev (String c a) = String.rev a +:+ String c "".
Proof. unfold String.rev at 1. simpl. apply rev_app_app. Qed.

Lemma str_rev_app a b : String.rev (a +:+ b) = String.rev b +:+ String.rev a.
Proof.
  induction a as [|c a IH].
  - by rewrite str_app_nil_l, str_app_nil_r.
  - rewrite str_app_cons, !str_rev_cons, IH. by rewrite str_app_assoc.
Qed.

Lemma str_rev_nil_inv s : String.rev s = "" -> s = "".
Proof. intros Hr. by rewrite <- (str_rev_involutive s), Hr. Qed.

Lemma str_lstrip_length s : (String.length (str_lstrip s) <= String.length s)%nat.
Proof.
  induction s as [|c s IH]; simpl; [done |].
  destruct (is_whitespace c); simpl; lia.
Qed.

Lemma str_lstrip_fixed s :
  s <> "" -> str_lstrip s = s ->
  exists c r, s = String c r /\ is_whitespace c = false.
Proof.
  destruct s as [|c r]; [done |]. intros _ Hfix. exists c, r. split; [done |].
  simpl in Hfix. destruct (is_whitespace c); [| done].
  pose proof (str_lstrip_length r) as Hlen. rewrite Hfix in Hlen. simpl in Hlen. lia.
Qed.

Lemma str_lstrip_all_whitespace s :
  all_chars is_whitespace s = true -> str_lstrip s = "".
Proof.
  induction s as [|c s IH]; simpl; [done |].
  destruct (is_whitespace c); simpl; [exact IH | discriminate].
Qed.

Lemma str_strip_line x y :
  tsv_pair (x, y) -> str_strip (write_line (x, y)) = x +:+ String TAB y.
Proof.
  intros (Hx & Hlx & _ & Hy & Hry & _). simpl in *.
  destruct (str_lstrip_fixed x Hx Hlx) as (c & r & -> & Hc).
  assert (str_lstrip (String.rev y) = String.rev y) as Hly.
  { unfold str_rstrip in Hry. apply (f_equal String.rev) in Hry.
    by rewrite str_rev_involutive in Hry. }
  assert (String.rev y <> "") as Hyr by (intros Hr; by apply str_rev_nil_inv in Hr).
  destruct (str_lstrip_fixed _ Hyr Hly) as (c' & r' & Hrev & Hc').
  unfold str_strip, write_line. simpl fst. simpl snd.
  rewrite str_app_cons. simpl str_lstrip. rewrite Hc.
  unfold str_rstrip. rewrite <- str_app_cons.
  rewrite str_rev_app, str_rev_cons, str_rev_app.
  change (String.rev (String NEWLINE "")) with (String NEWLINE "").
  rewrite !str_app_cons, !str_app_nil_l. simpl str_lstrip.
  change (is_whitespace NEWLINE) with true. cbv iota.
  rewrite Hrev, !str_app_cons. simpl str_lstrip. rewrite Hc'.
  rewrite <- !str_app_cons, <- Hrev.
  rewrite !str_rev_app, str_rev_involutive.
  change (String.rev (String TAB "")) with (String TAB "").
  rewrite str_rev_involutive. reflexivity.
Qed.

Lemma str_split_nonempty sep s : str_split sep s <> [].
Proof.
  destruct s as [|c s]; simpl; [done |].
  destruct (bool_decide (c = sep)); [done |].
  by destruct (str_split sep s).
Qed.

Lemma str_split_app sep a b :
  str_split sep (a +:+ String sep b) = str_split sep a ++ str_split sep b.
Proof.
  induction a as [|c a IH].
  - rewrite str_app_nil_l. simpl. by rewrite bool_decide_eq_true_2.
  - rewrite str_app_cons. simpl. rewrite IH.
    destruct (bool_decide (c = sep)); [done |].
    pose proof (str_split_nonempty sep a) as Hne.
    by destruct (str_split sep a).
Qed.

Lemma str_split_no_sep sep s : count_char sep s = 0%nat -> str_split sep s = [s].
Proof.
  induction s as [|c s IH]; simpl; [done |].
  destruct (bool_decide (c = sep)); simpl; [discriminate |].
  intros Hc. by rewrite IH.
Qed.

Lemma length_str_split sep s : length (str_split sep s) = S (count_char sep s).
Proof.
  induction s as [|c s IH]; simpl; [done |].
  destruct (bool_decide (c = sep)); simpl; [by rewrite IH |].
  pose proof (str_split_nonempty sep s) as Hne.
  destruct (str_split sep s); [done | simpl in *; lia].
Qed.

Lemma unpack2_returns parts : returns (unpack2 parts) <-> length parts = 2%nat.
Proof.
  destruct parts as [|x [|y [|z parts]]]; simpl; split;
    try discriminate; try (intros [? [=]]); try done.
  intros _. by eexists.
Qed.

Section MainFacts.
Context `{R : GrammarRoot} `{D : Domain} `{Ord : SetOrder} `{Smp : Sampler}
        `{Pre : Preprocess}.

Lemma read_line_write_line x y :
  tsv_pair (x, y) -> read_line (write_line (x, y)) = Return (x, preprocess_lf y).
Proof.
  intros Hp. unfold read_line. rewrite (str_strip_line x y Hp).
  destruct Hp as (_ & _ & Hx & _ & _ & Hy). simpl in Hx, Hy.
  by rewrite str_split_app, !str_split_no_sep.
Qed.

Lemma read_data_app_Return lines data acc :
  foldlM (fun data line => ex ← read_line line; mret (data ++ [ex])) [] lines
  = Return data ->
  foldlM (fun data line => ex ← read_line line; mret (data ++ [ex])) acc lines
  = Return (acc ++ data).
Proof.
  revert data acc. induction lines as [|line lines IH] using rev_ind; intros data acc.
  - simpl. intros [= <-]. by rewrite List.app_nil_r.
  - rewrite !foldlM_app. simpl.
    destruct (foldlM _ [] lines) as [d |] eqn:Hd; simpl; [| discriminate].
    rewrite (IH d acc eq_refl). simpl.
    destruct (read_line line) as [ex |]; simpl; [| discriminate].
    intros [= <-]. by rewrite List.app_assoc.
Qed.

Lemma read_data_cons line lines ex data :
  read_line line = Return ex -> read_data lines = Return data ->
  read_data (line :: lines) = Return (ex :: data).
Proof.
  intros Hl Hd. unfold read_data in *. simpl. rewrite Hl. simpl.
  by rewrite (read_data_app_Return lines data [ex] Hd).
Qed.

(** X14. What [main] writes it can read: for pairs whose two fields are not
    empty and hold no tab, the first without whitespace at its start and the
    second without whitespace at its end, reading each string written for a
    pair (lines 174 and 176) as one line, the way lines 166-168 read the
    lines of a file, gives the pairs back, the second field passed through
    [preprocess_lf]. *)
Theorem read_data_write_line (data : list example) :
  Forall tsv_pair data ->
  read_data (write_line <$> data)
  = Return ((fun p : example => (p.1, preprocess_lf p.2)) <$> data).
Proof.
  induction 1 as [|[x y] data Hp Hall IH]; [done |].
  rewrite !fmap_cons. apply read_data_cons; [| exact IH].
  by apply read_line_write_line.
Qed.

Lemma str_strip_all_whitespace line :
  all_chars is_whitespace line = true -> str_strip line = "".
Proof.
  intros Hws. unfold str_strip. by rewrite str_lstrip_all_whitespace.
Qed.

(** X15. A line of the input file is read (lines 166-168) exactly when,
    with the whitespace at its two ends taken off, it holds one tab; any
    other line raises the [ValueError] of the unpacking, and so does a line
    of whitespace only, an empty last line for one. *)
Theorem read_line_returns_exactly (line : string) :
  (returns (read_line line) <-> count_char TAB (str_strip line) = 1%nat)
  /\ (count_char TAB (str_strip line) <> 1%nat ->
      exists msg, read_line line = Raise (ValueError msg))
  /\ (all_chars is_whitespace line = true ->
      read_line line
      = Raise (ValueError "not enough values to unpack (expected 2, got 1)"))
  /\ (forall before after, ~ returns (read_line line) ->
        ~ returns (read_data (before ++ line :: after))).
Proof.
  cut ((returns (read_line line) <-> count_char TAB (str_strip line) = 1%nat)
       /\ (count_char TAB (str_strip line) <> 1%nat ->
           exists msg, read_line line = Raise (ValueError msg))
       /\ (all_chars is_whitespace line = true ->
           read_line line
           = Raise (ValueError "not enough values to unpack (expected 2, got 1)"))).
  { intros (H1 & H2 & H3). repeat split; try apply H1; try done.
    intros before after Hn Hr. apply Hn. clear H1 H2 H3 Hn.
    unfold read_data in Hr. rewrite foldlM_app in Hr.
    destruct (foldlM _ [] before) as [d |]; simpl in Hr; [| by destruct Hr].
    destruct (read_line line) as [ex |]; [by eexists | by destruct Hr]. }
  assert (returns (read_line line) <-> count_char TAB (str_strip line) = 1%nat) as Hiff.
  { unfold read_line.
    pose proof (unpack2_returns (str_split TAB (str_strip line))) as Hu.
    rewrite length_str_split in Hu.
    destruct (unpack2 (str_split TAB (str_strip line))) as [xy | e]; simpl.
    - split; [intros _; apply Nat.succ_inj, Hu; by eexists | intros _; by eexists].
    - split; [intros [? [=]] |].
      intros Hc. rewrite Hc in Hu. destruct (proj2 Hu eq_refl) as [? [=]]. }
  split; [exact Hiff |]. split.
  - intros Hc. unfold read_line.
    destruct (str_split TAB (str_strip line)) as [|x [|y [|z parts]]] eqn:Hs; simpl;
      try by eexists.
    destruct Hc. apply Nat.succ_inj. by rewrite <- length_str_split, Hs.
  - intros Hws. unfold read_line. by rewrite str_strip_all_whitespace.
Qed.

Lemma read_data_length lines data :
  read_data lines = Return data -> length data = length lines.
Proof.
  unfold read_data. revert data.
  induction lines as [|line lines IH] using rev_ind; intros data.
  - simpl. by intros [= <-].
  - rewrite foldlM_app. simpl.
    destruct (foldlM _ [] lines) as [d |] eqn:Hd; simpl; [| discriminate].
    destruct (read_line line) as [ex |]; simpl; [| discriminate].
    intros [= <-]. rewrite !length_app, (IH d eq_refl). reflexivity.
Qed.

(** X16. When [main] comes to write its file, the folder is one of [train],
    [dev] and [test], the file holds one line per line of the input file,
    written from the pair read from it, and after them one line per sampled
    pair; the number of sampled pairs is the number asked for (none for a
    negative number), none of them is a pair read from the input, and the
    name of the file carries the sum of the number asked for and of the
    number that line 157, 160 or 163 fixes for the folder, whatever the
    number of lines of the input is. *)
Theorem main_written (files : string -> option (list string))
    (folder augmentation_type : string) (num : Z) (fuel : nat)
    (path : string) (content : list string) :
  main files folder augmentation_type num fuel = Written path content ->
  exists fname nums_data lines data aug_data,
    folder_file folder = Some (fname, nums_data)
    /\ folder ∈ ["train"; "dev"; "test"]
    /\ files fname = Some lines
    /\ read_data lines = Return data
    /\ content = (write_line <$> data) ++ (write_line <$> aug_data)
    /\ length content = (length lines + Z.to_nat num)%nat
    /\ Forall (fun p => p ∉ data) aug_data
    /\ path = output_path folder num nums_data augmentation_type.
Proof.
  unfold main. intros Hm.
  destruct (folder_file folder) as [[fname nums_data] |] eqn:Hf; [| discriminate].
  destruct (files fname) as [lines |] eqn:Hfiles; [| discriminate].
  destruct (read_data lines) as [data | e] eqn:Hd; [| discriminate].
  destruct (Augmenter_init data _) as [self | e] eqn:Hinit; [| discriminate].
  destruct (sample self num fuel) as [aug_data |] eqn:Hs; [| discriminate].
  injection Hm as <- <-.
  exists fname, nums_data, lines, data, aug_data.
  apply Augmenter_init_Return in Hinit as (_ & _ & Hset).
  unfold sample in Hs. apply sample_loop_spec in Hs as (Hlen & n & Hn & Hout);
    [| simpl; lia].
  simpl in Hout. repeat split; try done.
  - unfold folder_file in Hf.
    repeat case_bool_decide; try discriminate; subst; rewrite !elem_of_cons; auto.
  - rewrite length_app, !length_fmap, (read_data_length _ _ Hd). lia.
  - rewrite Hout. apply Forall_forall. intros p Hp.
    unfold accepted in Hp. apply list_elem_of_filter in Hp as [Hp _].
    intros Hin. apply Hp. by apply Hset.
Qed.

Lemma str_split_join sep (l : list string) :
  l <> [] -> Forall (fun t => count_char sep t = 0%nat) l ->
  str_split sep (String.concat (String sep "") l) = l.
Proof.
  intros Hne Hall. induction Hall as [|t l Ht Hall IH]; [done |].
  destruct l as [|t' l].
  - simpl. by apply str_split_no_sep.
  - change (String.concat (String sep "") (t :: t' :: l))
      with (t +:+ String sep "" +:+ String.concat (String sep "") (t' :: l)).
    rewrite str_app_cons, str_app_nil_l, str_split_app, IH by done.
    by rewrite str_split_no_sep.
Qed.

(** X17. [main] takes as its identifiers the parts of the augmentation type
    between the [+] signs (line 152): given identifiers without [+] joined
    by [+], it builds the [Augmenter] with these identifiers, so that the run
    comes to what the steps of [main] give with them. *)
Theorem main_aug_types (files : string -> option (list string))
    (folder : string) (aug_types : list string) (num : Z) (fuel : nat)
    (fname : string) (nums_data : Z) (lines : list string) (data : list example) :
  aug_types <> [] ->
  Forall (fun t => count_char "+"%char t = 0%nat) aug_types ->
  folder_file folder = Some (fname, nums_data) ->
  files fname = Some lines ->
  read_data lines = Return data ->
  main files folder (join "+" aug_types) num fuel
  = match Augmenter_init data aug_types with
    | Raise e => Raised (Python e)
    | Return augmenter =>
        match sample augmenter num fuel with
        | None => Unfinished
        | Some aug_data =>
            Written (output_path folder num nums_data (join "+" aug_types))
                    ((write_line <$> data) ++ (write_line <$> aug_data))
        end
    end.
Proof.
  intros Hne Hplus Hf Hfiles Hd. unfold main, join.
  rewrite Hf, Hfiles, Hd.
  by rewrite (str_split_join "+"%char aug_types Hne Hplus).
Qed.

End MainFacts.

Lemma str_join_split sep s : String.concat (String sep "") (str_split sep s) = s.
Proof.
  induction s as [|c s IH]; [done |]. simpl.
  pose proof (str_split_nonempty sep s) as Hne.
  destruct (bool_decide_reflect (c = sep)) as [-> | Hc].
  - destruct (str_split sep s) as [|h t] eqn:Hs; [done |].
    change (String.concat (String sep "") ("" :: h :: t))
      with ("" +:+ String sep "" +:+ String.concat (String sep "") (h :: t)).
    by rewrite IH.
  - destruct (str_split sep s) as [|h t] eqn:Hs; [done |].
    destruct t as [|h' t].
    + simpl in *. by rewrite IH.
    + change (String.concat (String sep "") (String c h :: h' :: t))
        with (String c (h +:+ String sep "" +:+ String.concat (String sep "") (h' :: t))).
      f_equal. exact IH.
Qed.

Lemma str_split_parts sep s :
  Forall (fun t => count_char sep t = 0%nat) (str_split sep s).
Proof.
  induction s as [|c s IH]; simpl; [by constructor |].
  destruct (bool_decide_reflect (c = sep)) as [-> | Hc].
  - by constructor.
  - pose proof (str_split_nonempty sep s) as Hne.
    destruct (str_split sep s) as [|h t]; [done |].
    inversion_clear IH as [|? ? Hh Ht]. constructor; [| done].
    simpl. by rewrite bool_decide_eq_false_2.
Qed.

Section MainBackFacts.
Context `{Pre : Preprocess}.

(** X18. A line that is read (lines 166-168) gives the two fields that its
    one tab separates once the whitespace at the two ends of the line is
    taken off, the second passed through [preprocess_lf]; neither holds a
    tab.  With a [preprocess_lf] that leaves the second field as it is, the
    line that [main] writes for the pair is the line without the whitespace
    at its ends, a newline added. *)
Theorem read_line_fields (line x y : string) :
  read_line line = Return (x, y) ->
  exists y_raw,
    y = preprocess_lf y_raw
    /\ str_strip line = x +:+ String TAB y_raw
    /\ count_char TAB x = 0%nat /\ count_char TAB y_raw = 0%nat
    /\ (preprocess_lf y_raw = y_raw ->
        write_line (x, y) = str_strip line +:+ String NEWLINE "").
Proof.
  unfold read_line. intros Hr.
  pose proof (str_join_split TAB (str_strip line)) as Hjoin.
  pose proof (str_split_parts TAB (str_strip line)) as Hparts.
  destruct (str_split TAB (str_strip line)) as [|a [|b [|c parts]]]; try discriminate.
  simpl in Hr. injection Hr as <- <-. exists b.
  inversion_clear Hparts as [|? ? Ha Hb]. inversion_clear Hb as [|? ? Hb' _].
  assert (str_strip line = a +:+ String TAB b) as Hline.
  { rewrite <- Hjoin. reflexivity. }
  repeat split; try done.
  intros Hid. unfold write_line. simpl. rewrite Hid, Hline.
  by rewrite str_app_assoc, str_app_cons.
Qed.

End MainBackFacts.

(** ** The further properties on the scenarios *)

Section MoreScenarios.
#[local] Existing Instance dollar_ROOT.
#[local] Existing Instance last_occurrence_order.
#[local] Existing Instance identity_preprocess.

Lemma geo_base_rules cat x y :
  (cat, x, y) ∈ rule_list (Grammar_of_dataset geo_dataset) ->
  (cat, x, y) = ("$ROOT", "what states border texas ?",
                 "answer(state(next_to(stateid(texas))))")
  \/ (cat, x, y) = ("$ROOT", "what is the highest mountain in ohio ?",
                    "answer(highest(mountain(loc(stateid(ohio)))))").
Proof.
  intros Hin. apply list_elem_of_In in Hin. simpl in Hin.
  destruct Hin as [Heq | [Heq | []]]; [left | right]; by symmetry.
Defined.

Lemma strategies_set_order_irrelevant_witness :
  induce_entity_grammar (D := geo_domain) (Ord := last_occurrence_order)
    geo_dataset (Grammar_of_dataset geo_dataset)
  = induce_entity_grammar (D := geo_domain) (Ord := reversed_order)
      geo_dataset (Grammar_of_dataset geo_dataset)
  /\ induce_nesting_grammar (D := geo_domain) (Ord := last_occurrence_order)
       (Grammar_of_dataset geo_dataset)
     = induce_nesting_grammar (D := geo_domain) (Ord := reversed_order)
         (Grammar_of_dataset geo_dataset).
Proof.
  apply (strategies_set_order_irrelevant (D := geo_domain)
           last_occurrence_order reversed_order).
  - intros cat x y Hin.
    destruct (geo_base_rules cat x y Hin) as [[= -> -> ->] | [= -> -> ->]];
      vm_compute; repeat constructor.
  - intros cat x y Hin.
    destruct (geo_base_rules cat x y Hin) as [[= -> -> ->] | [= -> -> ->]];
      vm_compute; repeat constructor.
Defined.

Lemma strategies_without_alignments_witness :
  induce_entity_grammar (D := silent_domain) geo_dataset (Grammar_of_dataset geo_dataset)
  = Return (Grammar_of_dataset geo_dataset)
  /\ induce_nesting_grammar (D := silent_domain) (Grammar_of_dataset geo_dataset)
     = Return (Grammar_of_dataset geo_dataset).
Proof.
  apply (strategies_without_alignments (D := silent_domain)).
  - intros x y _. reflexivity.
  - intros cat x y _. split; reflexivity.
Defined.


Lemma strategies_return_exactly_witness :
  (returns (induce_entity_grammar (D := geo_domain) geo_dataset
              (Grammar_of_dataset geo_dataset)) <->
   forall cat x_str y_str,
     (cat, x_str, y_str) ∈ rule_list (Grammar_of_dataset geo_dataset) ->
     alignments_spliceable x_str y_str
       (get_entity_alignments (Domain := geo_domain) x_str y_str))
  /\ (returns (induce_nesting_grammar (D := geo_domain)
                 (Grammar_of_dataset geo_dataset)) <->
      forall cat x_str y_str,
        (cat, x_str, y_str) ∈ rule_list (Grammar_of_dataset geo_dataset) ->
        alignments_spliceable x_str y_str
          (get_nesting_alignments (Domain := geo_domain) x_str y_str).1).
Proof.
  apply (strategies_return_exactly (D := geo_domain)).
  intros cat x y Hin.
  destruct (geo_base_rules cat x y Hin) as [[= -> -> ->] | [= -> -> ->]];
    vm_compute; repeat constructor; discriminate.
Defined.

Lemma overlapping_y_spans_raise_witness :
  induce_entity_grammar (D := many_to_one_domain) [("texas and texas", "f(texas)")]
    (Grammar_of_dataset [("texas and texas", "f(texas)")])
  = Raise (ValueError "Non-disjoint spans detected").
Proof.
  apply (overlapping_y_spans_raise (D := many_to_one_domain)
           [("texas and texas", "f(texas)")]
           (Grammar_of_dataset [("texas and texas", "f(texas)")])
           "$ROOT" "texas and texas" "f(texas)"
           ("$state", (0, 5), (2, 7)) ("$state", (10, 15), (2, 7)) [] [] []).
  - vm_compute. apply list_elem_of_here.
  - reflexivity.
  - exists 2. simpl. lia.
Defined.

Lemma induce_entity_grammar_shape_witness :
  exists templates,
    rule_list geo_entity_grammar = entity_rules (D := geo_domain) geo_dataset ++ templates
    /\ templates.*1.*1 = (rule_list (Grammar_of_dataset geo_dataset)).*1.*1
    /\ (forall x y c x_span y_span,
          (x, y) ∈ geo_dataset ->
          (c, x_span, y_span) ∈ get_entity_alignments (Domain := geo_domain) x y ->
          (c, slice x x_span.1 x_span.2, slice y y_span.1 y_span.2)
          ∈ rule_list geo_entity_grammar).
Proof.
  apply (induce_entity_grammar_shape (D := geo_domain) geo_dataset
           (Grammar_of_dataset geo_dataset) geo_entity_grammar).
  reflexivity.
Defined.

Lemma concat_twice_is_recursive_witness :
  let g2 := induce_concat_grammar
              (induce_concat_grammar (Grammar_of_dataset geo_dataset) 2) 3 in
  let pattern := sentence_tokens (Z.to_nat 2) in
  ("$sentence", pattern, pattern) ∈ rule_list g2
  /\ String.prefix "$sentence_0" pattern = true
  /\ filter (fun r : rule => r.1.1 = ROOT) (rule_list g2)
     = [(ROOT, sentence_tokens (Z.to_nat 3), sentence_tokens (Z.to_nat 3))].
Proof.
  apply (concat_twice_is_recursive (Grammar_of_dataset geo_dataset) 2 3).
  - discriminate.
  - lia.
Defined.

Lemma sample_starves_witness :
  sample (Smp := constant_sampler
                   ("what states border texas ?",
                    "answer(state(next_to(stateid(texas))))"))
    geo_augmenter 1 1000 = None.
Proof.
  refine (sample_starves (Smp := constant_sampler
                                   ("what states border texas ?",
                                    "answer(state(next_to(stateid(texas))))"))
            geo_augmenter 1 _ _ 1000%nat).
  - intros i. unfold grammar_sample, constant_sampler, geo_augmenter.
    cbn [dataset_set]. apply elem_of_list_to_set. apply list_elem_of_here.
  - lia.
Defined.

Lemma sample_keeps_duplicates_witness :
  sample (Smp := constant_sampler
                   ("what states border ohio ?",
                    "answer(state(next_to(stateid(ohio))))"))
    geo_augmenter 3 (Z.to_nat 3)
  = Some (replicate (Z.to_nat 3)
            ("what states border ohio ?", "answer(state(next_to(stateid(ohio))))")).
Proof.
  apply (sample_keeps_duplicates (Smp := constant_sampler
                                          ("what states border ohio ?",
                                           "answer(state(next_to(stateid(ohio))))"))).
  - intros i. reflexivity.
  - unfold geo_augmenter. cbn [dataset_set].
    rewrite elem_of_list_to_set. unfold geo_dataset.
    rewrite !elem_of_cons, elem_of_nil. intros [Heq | [Heq | []]]; discriminate Heq.
  - lia.
Defined.

Lemma read_data_write_line_witness :
  read_data (write_line <$> geo_dataset)
  = Return ((fun p : example => (p.1, preprocess_lf p.2)) <$> geo_dataset).
Proof.
  apply (read_data_write_line geo_dataset).
  repeat constructor; try discriminate; vm_compute; reflexivity.
Defined.

Lemma main_written_witness :
  exists fname nums_data lines data aug_data,
    folder_file "dev" = Some (fname, nums_data)
    /\ "dev" ∈ ["train"; "dev"; "test"]
    /\ dev_files fname = Some lines
    /\ read_data lines = Return data
    /\ (write_line <$> geo_dataset) ++ (write_line <$> geo_new_pairs)
       = (write_line <$> data) ++ (write_line <$> aug_data)
    /\ length ((write_line <$> geo_dataset) ++ (write_line <$> geo_new_pairs))
       = (length lines + Z.to_nat 2)%nat
    /\ Forall (fun p => p ∉ data) aug_data
    /\ "./geoQueryData/dev/geo880_dev_102_entity_recomb.tsv"
       = output_path "dev" 2 nums_data "entity".
Proof.
  apply (main_written (D := geo_domain) (Smp := round_robin (geo_dataset ++ geo_new_pairs))
           dev_files "dev" "entity" 2 4).
  vm_compute. reflexivity.
Defined.

Lemma main_aug_types_witness :
  main (D := geo_domain) (Smp := round_robin (geo_dataset ++ geo_new_pairs))
    dev_files "dev" (join "+" ["entity"; "nesting"]) 2 4
  = match Augmenter_init (D := geo_domain) geo_dataset ["entity"; "nesting"] with
    | Raise e => Raised (Python e)
    | Return augmenter =>
        match sample (Smp := round_robin (geo_dataset ++ geo_new_pairs))
                augmenter 2 4 with
        | None => Unfinished
        | Some aug_data =>
            Written (output_path "dev" 2 100 (join "+" ["entity"; "nesting"]))
                    ((write_line <$> geo_dataset) ++ (write_line <$> aug_data))
        end
    end.
Proof.
  apply (main_aug_types (D := geo_domain)
           (Smp := round_robin (geo_dataset ++ geo_new_pairs))
           dev_files "dev" ["entity"; "nesting"] 2 4
           "./geoQueryData/dev/geo880_dev100.tsv" 100 (write_line <$> geo_dataset)).
  - discriminate.
  - repeat constructor.
  - reflexivity.
  - reflexivity.
  - vm_compute. reflexivity.
Defined.

Lemma read_line_fields_witness :
  exists y_raw,
    "answer(state(next_to(stateid(texas))))" = preprocess_lf y_raw
    /\ str_strip (write_line ("what states border texas ?",
                              "answer(state(next_to(stateid(texas))))"))
       = "what states border texas ?" +:+ String TAB y_raw
    /\ count_char TAB "what states border texas ?" = 0%nat
    /\ count_char TAB y_raw = 0%nat
    /\ (preprocess_lf y_raw = y_raw ->
        write_line ("what states border texas ?",
                    "answer(state(next_to(stateid(texas))))")
        = str_strip (write_line ("what states border texas ?",
                                 "answer(state(next_to(stateid(texas))))"))
          +:+ String NEWLINE "").
Proof.
  apply (read_line_fields
           (write_line ("what states border texas ?",
                        "answer(state(next_to(stateid(texas))))"))).
  vm_compute. reflexivity.
Defined.

End MoreScenarios.
